(** * LoreKeeper: timeline store and monthly arc engine

    A shallow embedding of [lorekeeper/timeline_manager.py] and
    [lorekeeper/monthly_arc/monthly_engine.py], with the properties the
    specification states about them.

    Conventions of the embedding.
    - Python [str] values are [string]s; [<] and [<=] on [str] are the
      lexicographic comparison [String.compare] (code point order).
    - A [datetime.date] is its three fields; comparison is the
      lexicographic one on (year, month, day) and [d + timedelta(days=k)]
      walks the proleptic Gregorian calendar day by day.  The
      [OverflowError] Python raises when such a walk leaves the years
      1..9999 is not modelled: the walk just continues, and the year
      bound appears as [valid_date] where a statement needs it.
    - The directory of year shards is a finite map from the year to the
      rows of [<year>.json]; the unspecified order of [Path.glob] is a
      parameter.
    - Optional arguments are [option]s; Python truthiness ([x or y],
      [if x]) is written out. *)

From Stdlib Require Import ZArith QArith Lia Bool Ascii String DecimalString.
From stdpp Require Import base option list gmap strings sorting.

Local Open Scope Z_scope.

(** ** Strings *)

Definition str_le (a b : string) : bool := String.leb a b.
Definition str_lt (a b : string) : bool := String.ltb a b.

(** [str(n)] for an integer. *)
Definition str_of_Z (n : Z) : string := NilZero.string_of_int (Z.to_int n).

(** [sep.join(parts)] *)
Fixpoint join (sep : string) (parts : list string) : string :=
  match parts with
  | [] => EmptyString
  | [p] => p
  | p :: rest => (p ++ sep ++ join sep rest)%string
  end.

(** Python truthiness of a [str]. *)
Definition truthy_str (s : string) : bool :=
  match s with EmptyString => false | _ => true end.

(** ** Calendar dates *)

Module Calendar.

Record date := mkdate { year : Z; month : Z; day : Z }.

#[global] Instance date_eq_dec : EqDecision date.
Proof. solve_decision. Defined.

Definition is_leap (y : Z) : bool :=
  (y mod 4 =? 0) && (negb (y mod 100 =? 0) || (y mod 400 =? 0)).

Definition days_in_month (y m : Z) : Z :=
  if m =? 2 then (if is_leap y then 29 else 28)
  else if (m =? 4) || (m =? 6) || (m =? 9) || (m =? 11) then 30
  else 31.

(** The invariant of a Python [date] object: MINYEAR = 1, MAXYEAR = 9999. *)
Definition valid_date (d : date) : Prop :=
  1 <= year d <= 9999 /\ 1 <= month d <= 12 /\
  1 <= day d <= days_in_month (year d) (month d).

(** [d + timedelta(days=1)] and [d - timedelta(days=1)]. *)
Definition next_day (d : date) : date :=
  if day d <? days_in_month (year d) (month d)
  then mkdate (year d) (month d) (day d + 1)
  else if month d <? 12 then mkdate (year d) (month d + 1) 1
  else mkdate (year d + 1) 1 1.

Definition prev_day (d : date) : date :=
  if 1 <? day d then mkdate (year d) (month d) (day d - 1)
  else if 1 <? month d
       then mkdate (year d) (month d - 1) (days_in_month (year d) (month d - 1))
       else mkdate (year d - 1) 12 31.

(** [d + timedelta(days=k)] for an integer [k] of either sign. *)
Definition add_days (d : date) (k : Z) : date :=
  if 0 <=? k then Nat.iter (Z.to_nat k) next_day d
  else Nat.iter (Z.to_nat (- k)) prev_day d.

(** Python compares dates as the tuples (year, month, day). *)
Definition date_compare (a b : date) : comparison :=
  match year a ?= year b with
  | Eq => match month a ?= month b with
          | Eq => day a ?= day b
          | c => c
          end
  | c => c
  end.

Definition date_leb (a b : date) : bool :=
  match date_compare a b with Gt => false | _ => true end.
Definition date_ltb (a b : date) : bool :=
  match date_compare a b with Lt => true | _ => false end.

Definition date_le (a b : date) : Prop := date_leb a b = true.
Definition date_lt (a b : date) : Prop := date_ltb a b = true.

(** [min(a, b)] returns its first argument unless the second is smaller. *)
Definition date_min (a b : date) : date := if date_ltb b a then b else a.

(** [d.isoformat()], i.e. ["%04d-%02d-%02d"]. *)
Definition digit (n : Z) : ascii := ascii_of_N (48 + Z.to_N (n mod 10)).

Definition pad2 (n : Z) : string :=
  String (digit (n / 10)) (String (digit n) EmptyString).

Definition pad4 (n : Z) : string :=
  String (digit (n / 1000)) (String (digit (n / 100)) (pad2 n)).

Definition isoformat (d : date) : string :=
  (pad4 (year d) ++ "-" ++ pad2 (month d) ++ "-" ++ pad2 (day d))%string.

Arguments add_days : simpl never.
Arguments isoformat : simpl never.

(** A linear rank that orders calendar dates like the tuple comparison;
    it only measures the loops below and is no day count. *)
Definition rank (d : date) : Z := (year d * 12 + month d) * 31 + day d.

(** A date of the calendar, whatever its year. *)
Definition cal_date (d : date) : Prop :=
  1 <= month d <= 12 /\ 1 <= day d <= days_in_month (year d) (month d).

End Calendar.

Import Calendar.

(** ** Timeline events *)

(** Modelled from the spec: [event_schema.TimelineEvent], a dataclass that
    is not among the sources.  Section 3 of the specification lists its
    fields; the defaults ([tags] and [metadata] empty, [archived] false,
    [source] empty) are the ones the tests and [correct_event] rely on.
    The fields carry the prefix [ev_] because [id], [date] and [type]
    are taken. *)
Record TimelineEvent := mkEvent {
  ev_id : string;
  ev_date : string;
  ev_title : string;
  ev_type : string;
  ev_details : string;
  ev_tags : list string;
  ev_source : string;
  ev_metadata : gmap string string;
  ev_archived : bool
}.


(** ** Week partitioning ([MonthlyArcEngine._week_ranges]) *)

(** The tuple [(label, cursor, week_end, events_in_week)]. *)
Record Week := mkWeek {
  w_label : string;
  w_start : date;
  w_end : date;
  w_events : list TimelineEvent
}.

(** [cursor.isoformat() <= event.date <= week_end.isoformat()] *)
Definition in_week (cursor week_end : date) (event : TimelineEvent) : bool :=
  str_le (isoformat cursor) (ev_date event) &&
  str_le (ev_date event) (isoformat week_end).

(** [f"Week {week_index} ({cursor.isoformat()} to {week_end.isoformat()})"] *)
Definition week_label (week_index : Z) (cursor week_end : date) : string :=
  ("Week " ++ str_of_Z week_index ++ " (" ++ isoformat cursor ++ " to "
     ++ isoformat week_end ++ ")")%string.

(** The [while cursor <= end] loop.  The fuel bounds the number of
    iterations; [week_loop_chain] below shows it is never used up. *)
Fixpoint week_loop (fuel : nat) (cursor end_ : date) (week_index : Z)
    (events : list TimelineEvent) : list Week :=
  match fuel with
  | O => []
  | S fuel' =>
    if date_leb cursor end_ then
      let week_end := date_min (add_days cursor 6) end_ in
      let events_in_week := List.filter (in_week cursor week_end) events in
      mkWeek (week_label week_index cursor week_end) cursor week_end events_in_week
        :: week_loop fuel' (add_days week_end 1) end_ (week_index + 1) events
    else []
  end.

Definition _week_ranges (start end_ : date) (events : list TimelineEvent)
    : list Week :=
  week_loop (Z.to_nat (rank end_ - rank start + 1)) start end_ 1 events.


(** One window of the loop, as the body builds it. *)
Definition week_of (week_index : Z) (cursor week_end : date)
    (events : list TimelineEvent) : Week :=
  mkWeek (week_label week_index cursor week_end) cursor week_end
         (List.filter (in_week cursor week_end) events).

(** The shape of the list the loop builds towards [end_]: full windows of
    seven days, then one window that stops at [end_]. *)
Inductive week_chain (end_ : date) (events : list TimelineEvent)
    : Z -> date -> list Week -> Prop :=
| chain_last idx cursor k :
    0 <= k <= 6 -> cal_date cursor -> add_days cursor k = end_ ->
    week_chain end_ events idx cursor [week_of idx cursor end_ events]
| chain_step idx cursor week_end next ws :
    cal_date cursor ->
    week_end = add_days cursor 6 ->
    date_lt week_end end_ ->
    next = add_days week_end 1 ->
    week_chain end_ events (idx + 1) next ws ->
    week_chain end_ events idx cursor
               (week_of idx cursor week_end events :: ws).


(** ** Reading ISO dates *)

(** The strict [YYYY-MM-DD] reading of [datetime.fromisoformat], the one
    parser the examples run with.  The functions below take the parser
    as a parameter, so nothing proved about them depends on this one. *)
Definition digit_val (c : ascii) : option Z :=
  let n := Z.of_N (N_of_ascii c) in
  if (48 <=? n) && (n <=? 57) then Some (n - 48) else None.

Fixpoint digits_val (acc : Z) (s : string) : option Z :=
  match s with
  | EmptyString => Some acc
  | String c s' =>
    match digit_val c with
    | Some v => digits_val (acc * 10 + v) s'
    | None => None
    end
  end.

Definition strict_fromisoformat (s : string) : option date :=
  if negb (Nat.eqb (String.length s) 10) then None
  else if negb (String.eqb (substring 4 1 s) "-" && String.eqb (substring 7 1 s) "-") then None
  else
    match digits_val 0 (substring 0 4 s), digits_val 0 (substring 5 2 s),
          digits_val 0 (substring 8 2 s) with
    | Some y, Some m, Some d =>
      if (1 <=? y) && (1 <=? m) && (m <=? 12) && (1 <=? d) && (d <=? days_in_month y m)
      then Some (mkdate y m d) else None
    | _, _, _ => None
    end.

(** ** Month range resolution ([MonthlyArcEngine._resolve_month_range]) *)

(** A value of type [date | datetime | str]; a [datetime] is its date and
    the seconds since midnight. *)
Inductive DateArg :=
| ArgDate (d : date)
| ArgDateTime (d : date) (seconds : Z)
| ArgStr (s : string).

(** Truthiness of an [Optional[date | datetime | str]]: [None] and the
    empty string are false, every date and datetime is true. *)
Definition arg_truthy (value : option DateArg) : bool :=
  match value with
  | None => false
  | Some (ArgStr s) => truthy_str s
  | Some _ => true
  end.

Section MonthRange.

(** [datetime.fromisoformat(s).date()]; [None] stands for [ValueError]. *)
Variable fromisoformat : string -> option date.

(** [datetime.now(UTC).date()], fixed for the call. *)
Variable today : date.

Definition _normalize_date (value : option DateArg) : option date :=
  match value with
  | None => Some today
  | Some (ArgDateTime d _) => Some d
  | Some (ArgDate d) => Some d
  | Some (ArgStr s) => fromisoformat s
  end.

(** [self._normalize_date(v) if v else None]: the outer [option] is the
    exception, the inner one is Python's [None]. *)
Definition normalize_if_given (value : option DateArg) : option (option date) :=
  if arg_truthy value then
    match _normalize_date value with
    | Some d => Some (Some d)
    | None => None
    end
  else Some None.

Definition _resolve_month_range (start_date end_date : option DateArg)
    : option (date * date) :=
  match start_date, end_date with
  | None, None =>
    let start := mkdate (year today) (month today) 1 in
    let next_month :=
      if month today =? 12 then mkdate (year today + 1) 1 1
      else mkdate (year today) (month today + 1) 1 in
    let end_ := add_days next_month (-1) in
    Some (start, end_)
  | _, _ =>
    match normalize_if_given start_date with
    | None => None
    | Some start =>
      match normalize_if_given end_date with
      | None => None
      | Some end_ =>
        let '(start, end_) :=
          match start, end_ with
          | Some s, None => (Some s, Some (add_days s 30))
          | None, Some e => (Some (add_days e (-30)), Some e)
          | _, _ => (start, end_)
          end in
        match start, end_ with
        | Some s, Some e => if date_ltb e s then Some (e, s) else Some (s, e)
        | _, _ => Some (add_days today (-30), today)
        end
      end
    end
  end.

End MonthRange.

(** ** Sorting as Python's [sorted] does *)

(** A stable insertion sort: among elements that compare equal the
    earlier one stays first, as in [sorted]. *)
Section StableSort.

Context {A : Type} (le : A -> A -> bool).

Fixpoint insert_sorted (x : A) (l : list A) : list A :=
  match l with
  | [] => [x]
  | y :: l' => if le x y then x :: y :: l' else y :: insert_sorted x l'
  end.

Fixpoint sorted (l : list A) : list A :=
  match l with
  | [] => []
  | x :: l' => insert_sorted x (sorted l')
  end.

End StableSort.

(** ** The timeline store ([TimelineManager]) *)

(** The directory [base_path]: the rows of [<year>.json] for every shard
    file that exists.  The store owns the directory, so every file in it
    is a shard written by the functions below. *)
Abbreviation Store := (gmap Z (list TimelineEvent)).

(** How a call ends: it returns a value, or raises after it has left the
    directory in the given state. *)
Inductive Outcome (A : Type) :=
| Returns (store : Store) (value : A)
| Raises (store : Store).
Arguments Returns {A} store value.
Arguments Raises {A} store.

Definition set_archived (item : TimelineEvent) : TimelineEvent :=
  mkEvent (ev_id item) (ev_date item) (ev_title item) (ev_type item)
          (ev_details item) (ev_tags item) (ev_source item) (ev_metadata item) true.

(** The inner loop of [archive_event] over the rows of one shard: the
    rows to write back and the last row that carries the id, if any. *)
Fixpoint archive_rows (event_id : string) (events : list TimelineEvent)
    : list TimelineEvent * option TimelineEvent :=
  match events with
  | [] => ([], None)
  | item :: rest =>
    let '(updated, later) := archive_rows event_id rest in
    if String.eqb (ev_id item) event_id then
      let item' := if ev_archived item then item else set_archived item in
      (item' :: updated, match later with Some e => Some e | None => Some item' end)
    else (item :: updated, later)
  end.

(** [set(tags).intersection(event.tags)], as the list of the wanted tags
    the event carries; only its emptiness is looked at. *)
Definition tags_intersection (tags event_tags : list string) : list string :=
  List.filter (fun t => existsb (String.eqb t) event_tags) tags.

(** The file name of a shard, the key [sorted] orders the paths by. *)
Definition shard_name (year : Z) : string := (str_of_Z year ++ ".json")%string.

Definition sorted_paths (years : list Z) : list Z :=
  sorted (fun a b => str_le (shard_name a) (shard_name b)) years.

Section TimelineManager.

(** [datetime.fromisoformat(s)] reduced to its date; [None] stands for
    [ValueError]. *)
Variable fromisoformat : string -> option date.

(** The order in which [Path.glob("*.json")] lists the shard files whose
    years are given; the file system decides it. *)
Variable glob : gset Z -> list Z.

Definition _load_raw_year (year : Z) (store : Store) : Store * list TimelineEvent :=
  match store !! year with
  | Some events => (store, events)
  | None => (<[year := []]> store, [])
  end.

Definition _save_year (year : Z) (events : list TimelineEvent) (store : Store) : Store :=
  <[year := events]> store.

(** Rows and events have the same fields, so building a [TimelineEvent] from
    a row and [asdict] are the identity here. *)
Definition load_year (year : Z) (store : Store) : Store * list TimelineEvent :=
  _load_raw_year year store.

Definition add_event (event : TimelineEvent) (store : Store) : Outcome TimelineEvent :=
  match fromisoformat (ev_date event) with
  | None => Raises store
  | Some d =>
    let event_year := year d in
    let '(store, events) := _load_raw_year event_year store in
    Returns (_save_year event_year (events ++ [event]) store) event
  end.

(** [candidates.extend(self.load_year(y))] for each listed year. *)
Fixpoint load_years (years : list Z) (store : Store) : Store * list TimelineEvent :=
  match years with
  | [] => (store, [])
  | y :: rest =>
    let '(store, events) := load_year y store in
    let '(store, more) := load_years rest store in
    (store, events ++ more)
  end.

Definition in_range (start_date end_date : option string) (tags : list string)
    (include_archived : bool) (event : TimelineEvent) : bool :=
  if negb include_archived && ev_archived event then false
  else if (match tags with [] => false | _ => true end)
          && (match tags_intersection tags (ev_tags event) with [] => true | _ => false end)
       then false
  else if (match start_date with
           | Some s => truthy_str s && str_lt (ev_date event) s
           | None => false end) then false
  else if (match end_date with
           | Some s => truthy_str s && str_lt s (ev_date event)
           | None => false end) then false
  else true.

Definition get_events (year : option Z) (start_date end_date : option string)
    (tags : option (list string)) (include_archived : bool) (store : Store)
    : Store * list TimelineEvent :=
  let tags := match tags with Some (t :: ts) => t :: ts | _ => [] end in
  let '(store, candidates) :=
    match year with
    | Some y => load_year y store
    | None => load_years (sorted_paths (glob (dom store))) store
    end in
  (store, List.filter (in_range start_date end_date tags include_archived) candidates).

(** The outer loop of [archive_event] over the listed shards.  A
    [TimelineEvent] is a plain dataclass, hence always true, so
    [if archived_event] asks whether a row carried the id. *)
Fixpoint archive_in (years : list Z) (event_id : string) (store : Store)
    : Store * option TimelineEvent :=
  match years with
  | [] => (store, None)
  | year :: rest =>
    let '(store, events) := _load_raw_year year store in
    let '(updated, archived_event) := archive_rows event_id events in
    match archived_event with
    | Some e => (_save_year year updated store, Some e)
    | None => archive_in rest event_id store
    end
  end.

Definition archive_event (event_id : string) (store : Store)
    : Store * option TimelineEvent :=
  archive_in (glob (dom store)) event_id store.



End TimelineManager.

(** ** Vocabulary for the store properties *)

(** What [archive_event] does to one row. *)
Definition archive_item (event_id : string) (item : TimelineEvent) : TimelineEvent :=
  if String.eqb (ev_id item) event_id
  then (if ev_archived item then item else set_archived item)
  else item.

(** The rows of the shard of a year, none when the file does not exist. *)
Definition shard_rows (store : Store) (year : Z) : list TimelineEvent :=
  default [] (store !! year).

(** Every row of every shard, shard by shard. *)
Definition all_rows (store : Store) : list TimelineEvent :=
  flat_map (shard_rows store) (elements (dom store)).

(** The rows of the shards other than the one of [year]. *)
Definition rest_rows (store : Store) (year : Z) : list TimelineEvent :=
  flat_map (shard_rows store) (elements (dom store ∖ {[year]})).

Definition active (event : TimelineEvent) : bool := negb (ev_archived event).

(** [get_events()] with every argument left to its default. *)
Definition query_default (glob : gset Z -> list Z) (store : Store) : list TimelineEvent :=
  snd (get_events glob None None None None false store).

(** [get_events(include_archived=True)] *)
Definition query_all (glob : gset Z -> list Z) (store : Store) : list TimelineEvent :=
  snd (get_events glob None None None None true store).


(** The predicates of the specification for [get_events], each of them
    applied only when its argument is given, that is, neither [None] nor
    empty. *)
Definition matches_query (start_date end_date : option string)
    (tags : option (list string)) (include_archived : bool)
    (event : TimelineEvent) : Prop :=
  (include_archived = false -> ev_archived event = false) /\
  (forall ts, tags = Some ts -> ts <> [] ->
     exists t, t ∈ ts /\ t ∈ ev_tags event) /\
  (forall s, start_date = Some s -> s <> EmptyString ->
     str_le s (ev_date event) = true) /\
  (forall s, end_date = Some s -> s <> EmptyString ->
     str_le (ev_date event) s = true).

(** The rows [get_events] looks at: those of the requested shard, or
    those of every shard in the order of the sorted file names. *)
Definition candidates (glob : gset Z -> list Z) (year : option Z) (store : Store)
    : list TimelineEvent :=
  match year with
  | Some y => shard_rows store y
  | None => flat_map (shard_rows store) (sorted_paths (glob (dom store)))
  end.

(** A directory the examples start from: one shard with one active row. *)
Definition example_event : TimelineEvent :=
  mkEvent "e1" "2025-03-01" "Old Detail" "note" "Wrong info" ["bjj"] "user_entry" ∅ false.

Definition example_store : Store := {[ 2025 := [example_event] ]}.

(** The listing order the examples run with. *)
Definition glob_elements (X : gset Z) : list Z := elements X.





(** ** Sequences of store calls *)



Section Runs.

Variable fromisoformat : string -> option date.
Variable glob : gset Z -> list Z.





End Runs.






(** ** Dictionaries that remember insertion order *)

(** Python dictionaries iterate in the order their keys were first set.
    Where that order shows in a result the dictionary is the list of its
    items; the key type is [str] throughout. *)

(** [d[key] = d.get(key, 0) + 1] *)
Fixpoint dict_incr (key : string) (d : list (string * Z)) : list (string * Z) :=
  match d with
  | [] => [(key, 1)]
  | (k, v) :: rest =>
    if String.eqb k key then (k, v + 1) :: rest else (k, v) :: dict_incr key rest
  end.

(** [d.setdefault(key, []).append(x)] *)
Fixpoint dict_append {A} (key : string) (x : A) (d : list (string * list A))
    : list (string * list A) :=
  match d with
  | [] => [(key, [x])]
  | (k, v) :: rest =>
    if String.eqb k key then (k, v ++ [x]) :: rest else (k, v) :: dict_append key x rest
  end.

(** [key in d] *)
Definition dict_has {A} (key : string) (d : list (string * A)) : bool :=
  existsb (fun kv => String.eqb (fst kv) key) d.

(** [a or b] on the results of [meta.get]: a missing key and the empty
    string are both false. *)
Definition truthy_get (meta : gmap string string) (key : string) : option string :=
  match meta !! key with
  | Some s => if truthy_str s then Some s else None
  | None => None
  end.

Definition first_truthy (a b : option string) : option string :=
  match a with Some s => Some s | None => b end.

(** ** Task summary ([MonthlyArcEngine.summarize_month_tasks]) *)

(** The dictionary a [summarize_month] method returns: any subset of the
    keys of the summary.  A score is a number or Python's [None]. *)
Record SummaryUpdate := mkUpdate {
  u_completed : option (list string);
  u_overdue : option (list string);
  u_new_tasks : option (list string);
  u_priority : option (list string);
  u_efficiency_score : option (option Q);
  u_week_breakdowns : option (list (list string))
}.

(** The task collaborator: each attribute it may or may not have, as the
    value calling it yields.  [summarize_month] may return [None]. *)
Record TaskEngine := mkTaskEngine {
  summarize_month : option (option SummaryUpdate);
  get_completed_tasks : option (list string);
  get_overdue_tasks : option (list string);
  get_overdue : option (list string);
  get_new_tasks : option (list string);
  get_priority_tasks : option (list string);
  get_priority : option (list string);
  weekly_breakdown : option (list (list string));
  breakdown_by_week : option (list (list string))
}.

(** The summary dictionary; [efficiency_score] keeps whether the key is
    present ([None]: absent) and whether its value is Python's [None]. *)
Record TaskSummary := mkSummary {
  completed : list string;
  overdue : list string;
  new_tasks : list string;
  priority : list string;
  efficiency_score : option (option Q);
  week_breakdowns : list (list string)
}.

(** [self._safe_task_call(name)] on an attribute. *)
Definition _safe_task_call (attribute : option (list string)) : list string :=
  match attribute with Some l => l | None => [] end.

(** [a or b] on lists. *)
Definition list_or {A} (a b : list A) : list A :=
  match a with [] => b | _ => a end.

(** [summary.update(u)] *)
Definition summary_update (summary : TaskSummary) (u : SummaryUpdate) : TaskSummary :=
  mkSummary (default (completed summary) (u_completed u))
            (default (overdue summary) (u_overdue u))
            (default (new_tasks summary) (u_new_tasks u))
            (default (priority summary) (u_priority u))
            (match u_efficiency_score u with
             | Some v => Some v
             | None => efficiency_score summary
             end)
            (default (week_breakdowns summary) (u_week_breakdowns u)).

Section TaskSummaries.

(** [round(x, 2)] on the float quotient, a function of the exact quotient;
    its values are the floating-point library's. *)
Variable round2 : Q -> Q.

Definition summarize_month_tasks (task_engine : TaskEngine) : TaskSummary :=
  let summary := mkSummary [] [] [] [] (Some (Some 0%Q)) [] in
  let summary :=
    match summarize_month task_engine with
    | Some result =>
      match result with
      | Some u => summary_update summary u
      | None => summary
      end
    | None =>
      mkSummary (_safe_task_call (get_completed_tasks task_engine))
                (list_or (_safe_task_call (get_overdue_tasks task_engine))
                         (_safe_task_call (get_overdue task_engine)))
                (_safe_task_call (get_new_tasks task_engine))
                (list_or (_safe_task_call (get_priority_tasks task_engine))
                         (_safe_task_call (get_priority task_engine)))
                (efficiency_score summary)
                (week_breakdowns summary)
    end in
  let summary :=
    match weekly_breakdown task_engine with
    | Some w => mkSummary (completed summary) (overdue summary) (new_tasks summary)
                          (priority summary) (efficiency_score summary) w
    | None =>
      match breakdown_by_week task_engine with
      | Some w => mkSummary (completed summary) (overdue summary) (new_tasks summary)
                            (priority summary) (efficiency_score summary) w
      | None => summary
      end
    end in
  match efficiency_score summary with
  | Some (Some _) => summary
  | _ =>
    let completed_count := Z.of_nat (length (completed summary)) in
    let overdue_count := Z.of_nat (length (overdue summary)) in
    let base := if completed_count + overdue_count =? 0 then 1
                else completed_count + overdue_count in
    mkSummary (completed summary) (overdue summary) (new_tasks summary)
              (priority summary)
              (Some (Some (round2 (inject_Z completed_count / inject_Z base)%Q)))
              (week_breakdowns summary)
  end.

End TaskSummaries.

(** The value the specification gives the score when the collaborator
    supplied none: [completed / max(1, completed + overdue)]. *)
Definition expected_efficiency (summary : TaskSummary) : Q :=
  (inject_Z (Z.of_nat (length (completed summary))) /
   inject_Z (Z.max 1 (Z.of_nat (length (completed summary))
                      + Z.of_nat (length (overdue summary)))))%Q.

(** A collaborator with the accessors only, and one whose monthly summary
    carries no score. *)
Definition accessor_engine : TaskEngine :=
  mkTaskEngine None (Some ["t1"%string]) None None None None None None None.

Definition scoreless_engine : TaskEngine :=
  mkTaskEngine
    (Some (Some (mkUpdate (Some ["t1"; "t2"]%string) (Some ["late"%string])
                          None None None None)))
    None None None None None None None None.

(** ** Epic progression ([MonthlyArcEngine.detect_epic_progression]) *)

(** The dictionary [epic_tags]. *)
Definition epic_tags (tag : string) : option string :=
  if String.eqb tag "robotics" then Some "Robotics: Omega-1"
  else if String.eqb tag "omega1" then Some "Robotics: Omega-1"
  else if String.eqb tag "japanese" then Some "Japanese Language"
  else if String.eqb tag "bjj" then Some "Brazilian Jiu-Jitsu"
  else if String.eqb tag "finances" then Some "Finances"
  else if String.eqb tag "relationships" then Some "Relationships"
  else if String.eqb tag "health" then Some "Health"
  else if String.eqb tag "career" then Some "Career"
  else None.

Record EpicRecord := mkEpic {
  epic : string;
  progress : string;
  milestones : list string
}.

(** The inner loop over the tags of one event. *)
Definition group_event (event : TimelineEvent)
    (epic_events : list (string * list TimelineEvent))
    : list (string * list TimelineEvent) :=
  fold_left (fun groups tag =>
               match epic_tags tag with
               | Some epic_key => dict_append epic_key event groups
               | None => groups
               end)
            (ev_tags event) epic_events.

(** The dictionary [epic_events] after the loop over the events. *)
Definition group_events (events : list TimelineEvent)
    : list (string * list TimelineEvent) :=
  fold_left (fun groups event => group_event event groups) events [].

(** [[e.title for e in epic_group if e.title]] *)
Definition titles (epic_group : list TimelineEvent) : list string :=
  List.filter truthy_str (map ev_title epic_group).

Definition epic_record (epic_name : string) (epic_group : list TimelineEvent) : EpicRecord :=
  mkEpic epic_name
         (str_of_Z (Z.of_nat (length epic_group)) ++ " updates recorded.")%string
         (titles epic_group).

Definition detect_epic_progression (events : list TimelineEvent) : list EpicRecord :=
  map (fun item => epic_record (fst item) (snd item)) (group_events events).

(** The specification's group of an epic: every event, once for each of
    its tags that maps to the epic, in event order. *)
Definition mentions (epic_name : string) (events : list TimelineEvent)
    : list TimelineEvent :=
  flat_map (fun event =>
              flat_map (fun tag =>
                          if decide (epic_tags tag = Some epic_name) then [event] else [])
                       (ev_tags event))
           events.

Definition robotics_event : TimelineEvent :=
  mkEvent "r1" "2024-01-08" "Robotics sprint" "work" "" ["robotics"; "omega1"] "" ∅ false.

(** [d.get(key)] *)
Fixpoint dict_get {A} (key : string) (d : list (string * A)) : option A :=
  match d with
  | [] => None
  | (k, v) :: rest => if String.eqb k key then Some v else dict_get key rest
  end.

(** What must hold of the dictionary [epic_events] while it is built. *)
Definition groups_ok (groups : list (string * list TimelineEvent))
    (group_of : string -> list TimelineEvent) : Prop :=
  NoDup (map fst groups) /\
  Forall (fun kv => snd kv <> []) groups /\
  forall name, default [] (dict_get name groups) = group_of name.


(** ** Weekly arcs and narratives *)

(** The value under ["turning_points"]: a list or tuple, or anything
    else, which the code turns into its [str]. *)
Inductive TurningPoints :=
| TpList (points : list string)
| TpOther (text : string).

(** The dictionary under ["narrative"]; a missing key is the empty value. *)
Record Narrative := mkNarrative {
  n_hook : string;
  n_arc : string;
  n_turning_points : TurningPoints
}.

(** What the weekly collaborator returned: a dictionary, with or without
    a (non-empty) ["narrative"], or a value that is no dictionary. *)
Inductive ArcValue :=
| ArcDict (narrative : option Narrative)
| ArcOther.

(** [{"week_label": label, "arc": arc}] *)
Record WeeklyArc := mkWeeklyArc {
  wa_week_label : string;
  wa_arc : ArcValue
}.

(** [narrative.get("arc")] of a week when it is there and true. *)
Definition week_motif (week : WeeklyArc) : option string :=
  match wa_arc week with
  | ArcDict (Some narrative) =>
    if truthy_str (n_arc narrative) then Some (n_arc narrative) else None
  | _ => None
  end.

(** ** Monthly themes ([MonthlyArcEngine.infer_monthly_themes]) *)

(** The dictionary [tag_counts] after the loop. *)
Definition count_tags (events : list TimelineEvent) : list (string * Z) :=
  fold_left (fun counts event =>
               fold_left (fun counts tag => dict_incr tag counts) (ev_tags event) counts)
            events [].

(** [sorted(tag_counts.items(), key=lambda item: item[1], reverse=True)] *)
Definition by_count_desc (items : list (string * Z)) : list (string * Z) :=
  sorted (fun a b => snd b <=? snd a) items.

Definition trending_tags (tag_counts : list (string * Z)) : list string :=
  let trending := map fst (List.filter (fun item => 1 <? snd item) tag_counts) in
  match trending, tag_counts with
  | [], _ :: _ => firstn 3 (map fst (by_count_desc tag_counts))
  | _, _ => trending
  end.

(** [meta.get("sentiment") or meta.get("tone")] when it is true. *)
Definition mood (event : TimelineEvent) : option string :=
  first_truthy (truthy_get (ev_metadata event) "sentiment")
               (truthy_get (ev_metadata event) "tone").

Definition special_keywords : list string :=
  ["robotics"; "omega1"; "japanese"; "bjj"; "training"]%string.

Definition infer_monthly_themes (events : list TimelineEvent)
    (weekly_arcs : list WeeklyArc) : list string :=
  let tag_counts := count_tags events in
  let trending := trending_tags tag_counts in
  let motifs := omap week_motif weekly_arcs in
  let emotional_patterns := omap mood events in
  let special_tracks :=
    map (fun keyword => ("Progress in " ++ keyword)%string)
        (List.filter (fun keyword => dict_has keyword tag_counts) special_keywords) in
  let themes :=
    (match trending with
     | [] => []
     | _ => [("Trending tags: " ++ join ", " (sorted str_le trending))%string]
     end)
    ++ (match motifs with
        | [] => []
        | _ => [("Repeated motifs: " ++ join ", " motifs)%string]
        end)
    ++ (match emotional_patterns with
        | [] => []
        | _ => [("Emotional patterns: " ++ join ", " emotional_patterns)%string]
        end)
    ++ special_tracks in
  match themes with
  | [] => ["No major themes detected."%string]
  | _ => themes
  end.

(** Every tag of every event, in the order the loop meets them. *)
Definition tags_seen (events : list TimelineEvent) : list string :=
  flat_map ev_tags events.

(** The events of the monthly test, with their tags only. *)
Definition test_events : list TimelineEvent :=
  [mkEvent "1" "2024-01-01" "New Year" "celebration" "" ["celebration"] ""
           {["sentiment" := "positive"]} false;
   mkEvent "2" "2024-01-08" "Robotics sprint" "work" "" ["robotics"; "omega1"] ""
           {["sentiment" := "focused"]} false;
   mkEvent "3" "2024-01-15" "BJJ class" "training" "" ["bjj"; "training"] ""
           {["tone" := "tired"]} false]%string.

(** ** The monthly arc engine ([MonthlyArcEngine]) *)

(** [x or y] for an optional list: [None] and the empty list both give
    [y]. *)
Definition events_or {A} (events : option (list A)) (otherwise : list A) : list A :=
  match events with
  | Some (e :: rest) => e :: rest
  | _ => otherwise
  end.

(** The weekly collaborator: the methods it may have, each as the
    function of the events and bounds it is called with; the keyword and
    positional call shapes the code tries reach the same method. *)
Record WeeklyArcEngine := mkWeeklyArcEngine {
  construct_week_arc : option (list TimelineEvent -> date -> date -> ArcValue);
  construct_weekly_arc : option (list TimelineEvent -> date -> date -> ArcValue);
  build_weekly_arc : option (list TimelineEvent -> date -> date -> ArcValue);
  create_weekly_arc : option (list TimelineEvent -> date -> date -> ArcValue);
  build_week_arc : option (list TimelineEvent -> date -> date -> ArcValue);
  weekly_stitch : option (list TimelineEvent -> ArcValue)
}.

(** What the stitcher returns: a string, or an object with [hook] and
    [arc]. *)
Inductive Stitched :=
| StitchedStr (text : string)
| StitchedObj (hook arc : string).

Record MonthStats := mkStats {
  st_count : nat;
  st_categories : list (string * Z);
  st_tags : list (string * Z);
  st_sentiment_summary : list (string * Z);
  st_week_splits : list (string * (string * string * nat))
}.

Record MonthData := mkMonthData {
  md_events : list TimelineEvent;
  md_stats : MonthStats
}.

Record MonthNarrative := mkMonthNarrative {
  hook : string;
  arc : string;
  subplots : list string;
  turning_points : list string;
  climax : string;
  resolution : string
}.

Record DriftReport := mkDrift {
  issues : list string;
  severity : string;
  notes : string
}.

Record MonthArc := mkMonthArc {
  time_window : string;
  ma_events : MonthData;
  ma_tasks : TaskSummary;
  ma_weekly_arcs : list WeeklyArc;
  ma_narrative : MonthNarrative;
  ma_themes : list string;
  ma_epics : list EpicRecord;
  ma_drift : DriftReport
}.

(** The turning points one week contributes. *)
Definition week_turning_points (week : WeeklyArc) : list string :=
  match wa_arc week with
  | ArcDict (Some narrative) =>
    match n_turning_points narrative with
    | TpList points => points
    | TpOther text => if truthy_str text then [text] else []
    end
  | _ => []
  end.

(** The part of [generate_month_narrative] after [month_events] is
    chosen. *)
Definition narrative_from (stitch : option (list TimelineEvent -> Stitched))
    (month_events : list TimelineEvent) (weekly_arcs : option (list WeeklyArc))
    : MonthNarrative :=
  let stitched :=
    match stitch with
    | Some f => f month_events
    | None => StitchedStr EmptyString
    end in
  let weeks := match weekly_arcs with Some l => l | None => [] end in
  let subplots := omap week_motif weeks in
  let turning_points := flat_map week_turning_points weeks in
  let turning_points :=
    match turning_points with
    | [] => List.filter truthy_str (map ev_title (firstn 3 month_events))
    | _ => turning_points
    end in
  mkMonthNarrative
    (match stitched with StitchedStr s => s | StitchedObj h _ => h end)
    (match stitched with StitchedStr s => s | StitchedObj _ a => a end)
    subplots turning_points
    (match turning_points with p :: _ => p | [] => EmptyString end)
    "Trajectory set for next month.".

(** The part of [run_monthly_drift_audit] after [month_events] is
    chosen. *)
Definition drift_from (audit : option (list TimelineEvent -> list string))
    (month_events : list TimelineEvent) : DriftReport :=
  let issues := match audit with Some f => f month_events | None => [] end in
  let n := Z.of_nat (length issues) in
  let severity :=
    if 5 <? n then "high"%string else if 0 <? n then "medium"%string else "low"%string in
  let notes :=
    match issues with
    | [] => "No drift detected."%string
    | _ => (str_of_Z n ++ " drift signals detected.")%string
    end in
  mkDrift issues severity notes.

Section Engine.

Variable fromisoformat : string -> option date.
Variable glob : gset Z -> list Z.
Variable round2 : Q -> Q.

(** [datetime.now(UTC).date()] during the call. *)
Variable today : date.

(** The collaborators the engine was built with; the timeline manager is
    the directory it reads. *)
Variable store : Store.
Variable weekly_arc_engine : WeeklyArcEngine.
Variable stitch : option (list TimelineEvent -> Stitched).
Variable task_engine : TaskEngine.
Variable audit : option (list TimelineEvent -> list string).

(** [self.timeline_manager.get_events(start_date=..., end_date=...)] *)
Definition events_between (start end_ : date) : list TimelineEvent :=
  snd (get_events glob None (Some (isoformat start)) (Some (isoformat end_)) None false store).

Definition _call_weekly_arc_engine (events : list TimelineEvent) (start end_ : date)
    : ArcValue :=
  match construct_week_arc weekly_arc_engine with
  | Some method => method events start end_
  | None =>
  match construct_weekly_arc weekly_arc_engine with
  | Some method => method events start end_
  | None =>
  match build_weekly_arc weekly_arc_engine with
  | Some method => method events start end_
  | None =>
  match create_weekly_arc weekly_arc_engine with
  | Some method => method events start end_
  | None =>
  match build_week_arc weekly_arc_engine with
  | Some method => method events start end_
  | None =>
  match weekly_stitch weekly_arc_engine with
  | Some method => method events
  | None => ArcDict (Some (mkNarrative EmptyString EmptyString (TpList [])))
  end end end end end end.

(** [getattr(event, "type", "") or "uncategorized"] *)
Definition category_of (event : TimelineEvent) : string :=
  if truthy_str (ev_type event) then ev_type event else "uncategorized".

(** [meta.get("sentiment") or meta.get("tone") or "neutral"] *)
Definition sentiment_of (event : TimelineEvent) : string :=
  match mood event with Some s => s | None => "neutral"%string end.

Definition gather_month_events (start_date end_date : option DateArg)
    : option MonthData :=
  match _resolve_month_range fromisoformat today start_date end_date with
  | None => None
  | Some (start, end_) =>
    let events := events_between start end_ in
    let categories :=
      fold_left (fun d event => dict_incr (category_of event) d) events [] in
    let tags := count_tags events in
    let sentiment_summary :=
      fold_left (fun d event => dict_incr (sentiment_of event) d) events [] in
    let week_splits :=
      map (fun w => (w_label w,
                     (isoformat (w_start w), isoformat (w_end w), length (w_events w))))
          (_week_ranges start end_ events) in
    Some (mkMonthData events
            (mkStats (length events) categories tags sentiment_summary week_splits))
  end.

Definition synthesize_weekly_arcs (start_date end_date : option DateArg)
    (events : option (list TimelineEvent)) : option (list WeeklyArc) :=
  match _resolve_month_range fromisoformat today start_date end_date with
  | None => None
  | Some (start, end_) =>
    let month_events := events_or events (events_between start end_) in
    Some (map (fun w => mkWeeklyArc (w_label w)
                          (_call_weekly_arc_engine (w_events w) (w_start w) (w_end w)))
              (_week_ranges start end_ month_events))
  end.

Definition generate_month_narrative (events : option (list TimelineEvent))
    (weekly_arcs : option (list WeeklyArc)) : option MonthNarrative :=
  match events with
  | Some (e :: rest) => Some (narrative_from stitch (e :: rest) weekly_arcs)
  | _ =>
    match gather_month_events None None with
    | Some month_data => Some (narrative_from stitch (md_events month_data) weekly_arcs)
    | None => None
    end
  end.

Definition run_monthly_drift_audit (events : option (list TimelineEvent)) : DriftReport :=
  let month_events := events_or events (query_all glob store) in
  drift_from audit month_events.

Definition construct_month_arc (start_date end_date : option DateArg) : option MonthArc :=
  match gather_month_events start_date end_date with
  | None => None
  | Some month_data =>
    let events := md_events month_data in
    match synthesize_weekly_arcs start_date end_date (Some events) with
    | None => None
    | Some weekly_arcs =>
      match generate_month_narrative (Some events) (Some weekly_arcs) with
      | None => None
      | Some narrative =>
        let themes := infer_monthly_themes events weekly_arcs in
        let epics := detect_epic_progression events in
        let drift := run_monthly_drift_audit (Some events) in
        let tasks := summarize_month_tasks round2 task_engine in
        match _resolve_month_range fromisoformat today start_date end_date with
        | None => None
        | Some (start, end_) =>
          Some (mkMonthArc (isoformat start ++ " to " ++ isoformat end_)%string
                  month_data tasks weekly_arcs narrative themes epics drift)
        end
      end
    end
  end.

(** The first and the last day of today's month, the range
    [gather_month_events()] resolves to. *)
Definition month_first : date := mkdate (year today) (month today) 1.
Definition month_last : date :=
  mkdate (year today) (month today) (days_in_month (year today) (month today)).

End Engine.

(** Collaborators of the engine examples: a stitcher and an auditor that
    show how many events, and which, they were given. *)
Definition counting_stitcher (events : list TimelineEvent) : Stitched :=
  StitchedStr ("stitched-" ++ str_of_Z (Z.of_nat (length events)))%string.

Definition title_auditor (events : list TimelineEvent) : list string :=
  map ev_title events.

Definition silent_weekly_engine : WeeklyArcEngine :=
  mkWeeklyArcEngine None None None None None None.

Definition idle_task_engine : TaskEngine :=
  mkTaskEngine None None None None None None None None None.

Definition identity_round (q : Q) : Q := q.


(** ** Vocabulary for the further properties *)

(** Two shards that both hold an active row with the same id. *)
Definition split_store : Store :=
  {[ 2024 := [mkEvent "e1" "2024-12-31" "Old Detail" "note" "Wrong info" [] "user_entry" ∅ false];
     2025 := [example_event] ]}.

(** A bound that holds a date of the calendar whenever it holds a date
    or a datetime. *)
Definition arg_cal (value : option DateArg) : Prop :=
  match value with
  | Some (ArgDate d) => cal_date d
  | Some (ArgDateTime d _) => cal_date d
  | _ => True
  end.


(** What a tally holds under a key: how often the key was met, and
    nothing when it was not met. *)
Definition tally_of (key : string) (keys : list string) : option Z :=
  let n := count_occ string_dec keys key in
  if Nat.eqb n 0 then None else Some (Z.of_nat n).

(** The sum of the values of a tally. *)
Definition dict_total (d : list (string * Z)) : Z :=
  fold_right Z.add 0 (map snd d).

(** An event dated by a timestamp, in the morning of the last day of the
    first week of January 2024. *)
Definition stamped_event : TimelineEvent :=
  mkEvent "s1" "2024-01-07T10:00:00" "Morning run" "health" "" [] "" ∅ false.

Definition stamped_store : Store := {[ 2024 := [stamped_event] ]}.

(** A task collaborator with the monthly summary of [scoreless_engine]
    and accessors besides. *)
Definition mixed_engine : TaskEngine :=
  mkTaskEngine
    (Some (Some (mkUpdate (Some ["t1"; "t2"]%string) (Some ["late"%string])
                          None None None None)))
    (Some ["other"%string]) (Some ["missed"%string]) None (Some ["fresh"%string])
    None None None None.

(** * Properties *)

Example isoformat_ex : isoformat (mkdate 2024 1 31) = "2024-01-31"%string.
Proof. reflexivity. Qed.

Example add_days_ex :
  add_days (mkdate 2024 2 24) 6 = mkdate 2024 3 1 /\
  add_days (mkdate 2023 12 31) 1 = mkdate 2024 1 1 /\
  add_days (mkdate 2024 3 1) (-30) = mkdate 2024 1 31.
Proof. repeat split; reflexivity. Qed.

(** ** Calendar facts *)

Section CalendarFacts.

Lemma valid_cal d : valid_date d -> cal_date d.
Proof. unfold valid_date, cal_date. tauto. Qed.

Lemma days_in_month_bounds y m : 28 <= days_in_month y m <= 31.
Proof.
  unfold days_in_month.
  repeat match goal with |- context [if ?b then _ else _] => destruct b end; lia.
Qed.

Lemma date_compare_rank a b :
  cal_date a -> cal_date b -> date_compare a b = (rank a ?= rank b).
Proof.
  intros [Hma Hda] [Hmb Hdb].
  pose proof (days_in_month_bounds (year a) (month a)).
  pose proof (days_in_month_bounds (year b) (month b)).
  unfold date_compare, rank. symmetry.
  destruct (Z.compare_spec (year a) (year b));
    [destruct (Z.compare_spec (month a) (month b));
       [destruct (Z.compare_spec (day a) (day b))|..]|..];
    first [apply Z.compare_eq_iff | apply Z.compare_lt_iff | apply Z.compare_gt_iff]; nia.
Qed.

Lemma date_le_rank a b : cal_date a -> cal_date b -> date_le a b <-> rank a <= rank b.
Proof.
  intros Ha Hb. unfold date_le, date_leb. rewrite (date_compare_rank a b Ha Hb).
  destruct (Z.compare_spec (rank a) (rank b)); split; intros; try lia; congruence.
Qed.

Lemma date_lt_rank a b : cal_date a -> cal_date b -> date_lt a b <-> rank a < rank b.
Proof.
  intros Ha Hb. unfold date_lt, date_ltb. rewrite (date_compare_rank a b Ha Hb).
  destruct (Z.compare_spec (rank a) (rank b)); split; intros; try lia; congruence.
Qed.

Lemma rank_inj a b : cal_date a -> cal_date b -> rank a = rank b -> a = b.
Proof.
  intros [Hma Hda] [Hmb Hdb] Hr.
  pose proof (days_in_month_bounds (year a) (month a)).
  pose proof (days_in_month_bounds (year b) (month b)).
  destruct a as [ya ma da], b as [yb mb db]; unfold rank in Hr; simpl in *.
  assert (ya = yb) by nia. subst.
  assert (ma = mb) by nia. subst.
  f_equal; lia.
Qed.

Lemma next_day_cal d : cal_date d -> cal_date (next_day d).
Proof.
  intros [Hm Hd]. unfold next_day, cal_date.
  pose proof (days_in_month_bounds (year d) (month d)).
  destruct (Z.ltb_spec (day d) (days_in_month (year d) (month d))); simpl; [lia|].
  destruct (Z.ltb_spec (month d) 12); simpl.
  - pose proof (days_in_month_bounds (year d) (month d + 1)). lia.
  - pose proof (days_in_month_bounds (year d + 1) 1). lia.
Qed.

Lemma next_day_rank d : cal_date d -> rank d < rank (next_day d).
Proof.
  intros [Hm Hd]. unfold next_day, rank.
  pose proof (days_in_month_bounds (year d) (month d)).
  destruct (Z.ltb_spec (day d) (days_in_month (year d) (month d))); simpl; [lia|].
  destruct (Z.ltb_spec (month d) 12); simpl; lia.
Qed.

(** No date of the calendar lies strictly between a day and the next. *)
Lemma next_day_gap a b :
  cal_date a -> cal_date b -> rank a < rank b -> rank (next_day a) <= rank b.
Proof.
  intros [Hma Hda] [Hmb Hdb] Hlt. unfold next_day, rank in *.
  pose proof (days_in_month_bounds (year a) (month a)).
  pose proof (days_in_month_bounds (year b) (month b)).
  destruct (Z.ltb_spec (day a) (days_in_month (year a) (month a))); simpl; [nia|].
  assert (day a = days_in_month (year a) (month a)) as Hlast by lia.
  destruct (Z.ltb_spec (month a) 12); simpl.
  - destruct (Z.eq_dec (year a) (year b)) as [Hy|Hy]; [|nia].
    destruct (Z.eq_dec (month a) (month b)) as [Hmm|Hmm]; [|nia].
    rewrite Hy, Hmm in *. lia.
  - destruct (Z.eq_dec (year a) (year b)) as [Hy|Hy]; [|nia].
    destruct (Z.eq_dec (month a) (month b)) as [Hmm|Hmm]; [|nia].
    rewrite Hy, Hmm in *. lia.
Qed.

Lemma next_day_year d : year d <= year (next_day d).
Proof.
  unfold next_day.
  repeat match goal with |- context [if ?b then _ else _] => destruct b end; simpl; lia.
Qed.

Lemma prev_next_day d : cal_date d -> prev_day (next_day d) = d.
Proof.
  intros [Hm Hd]. destruct d as [y m dd]; unfold next_day, prev_day; simpl in *.
  destruct (Z.ltb_spec dd (days_in_month y m)); simpl.
  - destruct (Z.ltb_spec 1 (dd + 1)); [f_equal; lia | lia].
  - destruct (Z.ltb_spec m 12); simpl.
    + destruct (Z.ltb_spec 1 (m + 1)); [|lia].
      replace (m + 1 - 1) with m by lia. f_equal; lia.
    + replace (y + 1 - 1) with y by lia.
      assert (m = 12) by lia; subst.
      unfold days_in_month in *; simpl in *. f_equal; lia.
Qed.

End CalendarFacts.

(** ** [isoformat] orders dates like the tuple comparison *)

Section IsoformatOrder.

Lemma digit_compare a b :
  0 <= a < 10 -> 0 <= b < 10 -> Ascii.compare (digit a) (digit b) = (a ?= b).
Proof.
  intros Ha Hb. unfold Ascii.compare, digit.
  rewrite !N_ascii_embedding by (rewrite !Z.mod_small by lia; lia).
  rewrite !Z.mod_small by lia.
  rewrite <- (N2Z.inj_compare (48 + Z.to_N a) (48 + Z.to_N b)).
  rewrite !N2Z.inj_add, !Z2N.id by lia.
  apply Z.add_compare_mono_l.
Qed.

Lemma compare_app s1 s2 t1 t2 :
  String.length s1 = String.length s2 ->
  String.compare (s1 ++ t1) (s2 ++ t2) =
  match String.compare s1 s2 with Eq => String.compare t1 t2 | c => c end.
Proof.
  revert s2. induction s1 as [|c s1 IH]; intros [|c' s2] Hlen; simpl in *;
    try discriminate; [reflexivity|].
  destruct (Ascii.compare c c'); [apply IH; congruence|reflexivity..].
Qed.

Lemma compare_refl s : String.compare s s = Eq.
Proof.
  induction s as [|c s IH]; simpl; [reflexivity|].
  assert (Ascii.compare c c = Eq) as -> by (unfold Ascii.compare; apply N.compare_refl).
  exact IH.
Qed.

Lemma pad2_compare a b :
  0 <= a < 100 -> 0 <= b < 100 -> String.compare (pad2 a) (pad2 b) = (a ?= b).
Proof.
  intros Ha Hb. unfold pad2. simpl.
  assert (digit a = digit (a mod 10)) as -> by (unfold digit; now rewrite Z.mod_mod).
  assert (digit b = digit (b mod 10)) as -> by (unfold digit; now rewrite Z.mod_mod).
  rewrite !digit_compare by (first [apply Z.mod_pos_bound; lia | split; [apply Z.div_pos|apply Z.div_lt_upper_bound]; lia]).
  pose proof (Z.div_mod a 10 ltac:(lia)). pose proof (Z.div_mod b 10 ltac:(lia)).
  pose proof (Z.mod_pos_bound a 10 ltac:(lia)). pose proof (Z.mod_pos_bound b 10 ltac:(lia)).
  symmetry.
  destruct (Z.compare_spec (a / 10) (b / 10));
    [destruct (Z.compare_spec (a mod 10) (b mod 10))|..];
    first [apply Z.compare_eq_iff | apply Z.compare_lt_iff | apply Z.compare_gt_iff]; lia.
Qed.

Lemma digit_mod x y : x mod 10 = y mod 10 -> digit x = digit y.
Proof. intros E. unfold digit. now rewrite E. Qed.

Lemma pad4_split n : 0 <= n -> pad4 n = (pad2 (n / 100) ++ pad2 (n mod 100))%string.
Proof.
  intros Hn. unfold pad4, pad2. simpl.
  pose proof (Z.div_mod n 100 ltac:(lia)). pose proof (Z.mod_pos_bound n 100 ltac:(lia)).
  pose proof (Z.div_mod n 10 ltac:(lia)). pose proof (Z.mod_pos_bound n 10 ltac:(lia)).
  pose proof (Z.div_mod (n mod 100) 10 ltac:(lia)).
  pose proof (Z.mod_pos_bound (n mod 100) 10 ltac:(lia)).
  rewrite (digit_mod (n / 1000) (n / 100 / 10)) by (now rewrite Z.div_div by lia).
  rewrite (digit_mod (n / 10) (n mod 100 / 10)).
  2:{ pose proof (Z.div_mod (n / 10) 10 ltac:(lia)).
      pose proof (Z.mod_pos_bound (n / 10) 10 ltac:(lia)).
      pose proof (Z.div_mod (n mod 100 / 10) 10 ltac:(lia)).
      pose proof (Z.mod_pos_bound (n mod 100 / 10) 10 ltac:(lia)).
      pose proof (Z.div_div n 10 10 ltac:(lia) ltac:(lia)) as Hdd. simpl in Hdd.
      assert (n mod 100 / 10 < 10) by (apply Z.div_lt_upper_bound; lia).
      assert (0 <= n mod 100 / 10) by (apply Z.div_pos; lia).
      lia. }
  rewrite (digit_mod n (n mod 100)) by lia.
  reflexivity.
Qed.

Lemma pad4_compare a b :
  0 <= a <= 9999 -> 0 <= b <= 9999 -> String.compare (pad4 a) (pad4 b) = (a ?= b).
Proof.
  intros Ha Hb. rewrite !pad4_split by lia.
  rewrite compare_app by reflexivity.
  pose proof (Z.div_mod a 100 ltac:(lia)). pose proof (Z.div_mod b 100 ltac:(lia)).
  pose proof (Z.mod_pos_bound a 100 ltac:(lia)). pose proof (Z.mod_pos_bound b 100 ltac:(lia)).
  assert (0 <= a / 100 < 100) by (split; [apply Z.div_pos|apply Z.div_lt_upper_bound]; lia).
  assert (0 <= b / 100 < 100) by (split; [apply Z.div_pos|apply Z.div_lt_upper_bound]; lia).
  rewrite !pad2_compare by lia.
  symmetry.
  destruct (Z.compare_spec (a / 100) (b / 100));
    [destruct (Z.compare_spec (a mod 100) (b mod 100))|..];
    first [apply Z.compare_eq_iff | apply Z.compare_lt_iff | apply Z.compare_gt_iff]; lia.
Qed.

Lemma pad4_length n : String.length (pad4 n) = 4%nat.
Proof. reflexivity. Qed.

Lemma pad2_length n : String.length (pad2 n) = 2%nat.
Proof. reflexivity. Qed.

(** The contract the store relies on: on zero-padded ISO strings the
    string order is the calendar order. *)
Lemma isoformat_compare a b :
  valid_date a -> valid_date b ->
  String.compare (isoformat a) (isoformat b) = date_compare a b.
Proof.
  intros (Hya & Hma & Hda) (Hyb & Hmb & Hdb).
  pose proof (days_in_month_bounds (year a) (month a)).
  pose proof (days_in_month_bounds (year b) (month b)).
  unfold isoformat, date_compare.
  rewrite compare_app by reflexivity. rewrite pad4_compare by lia.
  destruct (year a ?= year b); try reflexivity.
  rewrite (compare_app "-" "-") by reflexivity. simpl (String.compare "-" "-").
  rewrite compare_app by reflexivity. rewrite pad2_compare by lia.
  destruct (month a ?= month b); try reflexivity.
  rewrite (compare_app "-" "-") by reflexivity. simpl (String.compare "-" "-").
  apply pad2_compare; lia.
Qed.

Lemma isoformat_le a b :
  valid_date a -> valid_date b -> str_le (isoformat a) (isoformat b) = date_leb a b.
Proof.
  intros Ha Hb. unfold str_le, String.leb, date_leb. now rewrite isoformat_compare.
Qed.

Lemma isoformat_lt a b :
  valid_date a -> valid_date b -> str_lt (isoformat a) (isoformat b) = date_ltb a b.
Proof.
  intros Ha Hb. unfold str_lt, String.ltb, date_ltb. now rewrite isoformat_compare.
Qed.

End IsoformatOrder.

(** ** The order on [str] *)

Section StringOrder.

Lemma str_le_lt_trans a b c :
  str_le a b = true -> str_lt b c = true -> str_lt a c = true.
Proof.
  unfold str_le, str_lt, String.leb, String.ltb.
  revert b c. induction a as [|x a IH]; intros [|y b] [|z c]; simpl; try congruence.
  unfold Ascii.compare. specialize (IH b c).
  destruct (N.compare_spec (N_of_ascii x) (N_of_ascii y)) as [E1|L1|G1];
    destruct (N.compare_spec (N_of_ascii y) (N_of_ascii z)) as [E2|L2|G2];
    destruct (N.compare_spec (N_of_ascii x) (N_of_ascii z)) as [E3|L3|G3];
    try congruence; try lia; auto.
Qed.

Lemma str_lt_irrefl a : str_lt a a = false.
Proof. unfold str_lt, String.ltb. now rewrite compare_refl. Qed.

(** A string cannot lie in two ranges the second of which starts after
    the first has ended. *)
Lemma str_ranges_disjoint lo1 hi1 lo2 hi2 s :
  str_lt hi1 lo2 = true ->
  str_le lo1 s && str_le s hi1 = true ->
  str_le lo2 s && str_le s hi2 = true -> False.
Proof.
  intros Hlt [_ H1]%andb_prop [H2 _]%andb_prop.
  pose proof (str_le_lt_trans _ _ _ H1 Hlt) as H3.
  unfold str_le, str_lt, String.leb, String.ltb in *.
  rewrite String.compare_antisym in H2.
  destruct (String.compare s lo2); simpl in *; congruence.
Qed.

End StringOrder.

Example _week_ranges_january :
  map (fun w => (w_label w, length (w_events w)))
      (_week_ranges (mkdate 2024 1 1) (mkdate 2024 1 31)
         [mkEvent "a" "2024-01-07" "t" "" "" [] "" ∅ false;
          mkEvent "b" "2024-01-08" "u" "" "" [] "" ∅ false])
  = [("Week 1 (2024-01-01 to 2024-01-07)"%string, 1%nat);
     ("Week 2 (2024-01-08 to 2024-01-14)"%string, 1%nat);
     ("Week 3 (2024-01-15 to 2024-01-21)"%string, 0%nat);
     ("Week 4 (2024-01-22 to 2024-01-28)"%string, 0%nat);
     ("Week 5 (2024-01-29 to 2024-01-31)"%string, 0%nat)].
Proof. vm_compute. reflexivity. Qed.

(** ** Walking the calendar *)

Section AddDays.

Lemma add_days_nonneg d k :
  0 <= k -> add_days d k = Nat.iter (Z.to_nat k) next_day d.
Proof. intros Hk. unfold add_days. destruct (Z.leb_spec 0 k); [reflexivity|lia]. Qed.

Lemma add_days_one d : add_days d 1 = next_day d.
Proof. reflexivity. Qed.

Lemma iter_next_cal n d : cal_date d -> cal_date (Nat.iter n next_day d).
Proof. intros Hd. induction n; simpl; [assumption|now apply next_day_cal]. Qed.

Lemma iter_next_rank n d :
  cal_date d -> rank d + Z.of_nat n <= rank (Nat.iter n next_day d).
Proof.
  intros Hd. induction n as [|n IH]; simpl Nat.iter; [lia|].
  pose proof (next_day_rank _ (iter_next_cal n d Hd)). lia.
Qed.

Lemma add_days_cal d k : 0 <= k -> cal_date d -> cal_date (add_days d k).
Proof. intros Hk Hd. rewrite add_days_nonneg by lia. now apply iter_next_cal. Qed.

Lemma add_days_rank d k : 0 <= k -> cal_date d -> rank d + k <= rank (add_days d k).
Proof.
  intros Hk Hd. rewrite add_days_nonneg by lia.
  pose proof (iter_next_rank (Z.to_nat k) d Hd). lia.
Qed.

(** Every date between [a] and [a + n days] is [a + j days] for some [j <= n]. *)
Lemma iter_next_between n a b :
  cal_date a -> cal_date b ->
  rank a <= rank b <= rank (Nat.iter n next_day a) ->
  exists j, (j <= n)%nat /\ Nat.iter j next_day a = b.
Proof.
  revert a. induction n as [|n IH]; intros a Ha Hb [Hlo Hhi].
  - exists 0%nat. split; [lia|]. simpl in *. apply rank_inj; auto; lia.
  - destruct (Z.eq_dec (rank a) (rank b)) as [E|NE].
    + exists 0%nat. split; [lia|]. simpl. now apply rank_inj.
    + rewrite Nat.iter_succ_r in Hhi.
      destruct (IH (next_day a)) as (j & Hj & Hjb); auto using next_day_cal.
      { split; [apply next_day_gap; auto; lia|assumption]. }
      exists (S j). split; [lia|]. now rewrite Nat.iter_succ_r.
Qed.

Lemma add_days_between a b n :
  0 <= n -> cal_date a -> cal_date b ->
  rank a <= rank b <= rank (add_days a n) ->
  exists k, 0 <= k <= n /\ add_days a k = b.
Proof.
  intros Hn Ha Hb Hr. rewrite add_days_nonneg in Hr by lia.
  destruct (iter_next_between _ _ _ Ha Hb Hr) as (j & Hj & E).
  exists (Z.of_nat j). split; [lia|].
  rewrite add_days_nonneg by lia. now rewrite Nat2Z.id.
Qed.

End AddDays.

(** ** The week loop builds a chain of windows *)

Section WeekLoop.

Lemma date_min_spec a b :
  cal_date a -> cal_date b ->
  (rank b < rank a /\ date_min a b = b) \/ (rank a <= rank b /\ date_min a b = a).
Proof.
  intros Ha Hb. unfold date_min.
  destruct (date_ltb b a) eqn:E.
  - left. split; [now apply date_lt_rank|reflexivity].
  - right. split; [|reflexivity].
    destruct (Z.lt_ge_cases (rank b) (rank a)) as [Hlt|]; [|lia].
    apply date_lt_rank in Hlt; auto. unfold date_lt in Hlt. congruence.
Qed.

Lemma week_loop_past fuel cursor end_ idx events :
  cal_date cursor -> cal_date end_ -> rank end_ < rank cursor ->
  week_loop fuel cursor end_ idx events = [].
Proof.
  intros Hc He Hlt. destruct fuel; simpl; [reflexivity|].
  destruct (date_leb cursor end_) eqn:E; [|reflexivity].
  apply (date_le_rank cursor end_) in E; auto. lia.
Qed.

(** With the fuel [_week_ranges] provides, the loop ends because the
    cursor has passed [end_], and what it has built is a chain. *)
Lemma week_loop_chain fuel cursor end_ idx events :
  cal_date cursor -> cal_date end_ -> rank cursor <= rank end_ ->
  rank end_ - rank cursor < Z.of_nat fuel ->
  week_chain end_ events idx cursor (week_loop fuel cursor end_ idx events).
Proof.
  revert cursor idx. induction fuel as [|fuel IH]; intros cursor idx Hc He Hle Hfuel; [lia|].
  cbn [week_loop]. assert (date_leb cursor end_ = true) as -> by (now apply date_le_rank).
  pose proof (add_days_cal cursor 6 ltac:(lia) Hc) as Hc6.
  pose proof (add_days_rank cursor 6 ltac:(lia) Hc) as Hr6.
  assert (Hstop : week_loop fuel (add_days end_ 1) end_ (idx + 1) events = []).
  { apply week_loop_past; auto.
    - rewrite add_days_one. now apply next_day_cal.
    - rewrite add_days_one. now apply next_day_rank. }
  destruct (date_min_spec (add_days cursor 6) end_ Hc6 He) as [[Hlt ->]|[Hge ->]].
  - rewrite Hstop.
    destruct (add_days_between cursor end_ 6) as (k & Hk & E); auto; try lia.
    now apply (chain_last _ _ _ _ k).
  - destruct (Z.eq_dec (rank (add_days cursor 6)) (rank end_)) as [E|NE].
    + apply rank_inj in E; auto. rewrite E, Hstop.
      now apply (chain_last _ _ _ _ 6).
    + apply (chain_step _ _ _ _ _ (add_days (add_days cursor 6) 1)); auto.
      { apply date_lt_rank; auto. lia. }
      rewrite add_days_one. apply IH; auto using next_day_cal.
      * apply next_day_gap; auto. lia.
      * pose proof (next_day_rank _ Hc6). lia.
Qed.

Lemma week_ranges_chain start end_ events :
  cal_date start -> cal_date end_ -> date_le start end_ ->
  week_chain end_ events 1 start (_week_ranges start end_ events).
Proof.
  intros Hs He Hle. apply date_le_rank in Hle; auto.
  apply week_loop_chain; auto. lia.
Qed.

End WeekLoop.

(** ** What a chain of windows guarantees *)

Section WeekChain.

Context (end_ : date) (events : list TimelineEvent).

Lemma chain_cal_end idx cursor ws :
  week_chain end_ events idx cursor ws -> cal_date end_.
Proof.
  induction 1 as [idx cursor k Hk Hc E|]; [|assumption].
  subst. apply add_days_cal; [lia|assumption].
Qed.


Lemma chain_lookup idx cursor ws :
  week_chain end_ events idx cursor ws ->
  forall (i : nat) w, ws !! i = Some w ->
    w = week_of (idx + Z.of_nat i) (w_start w) (w_end w) events /\
    cal_date (w_start w) /\ cal_date (w_end w) /\
    rank cursor <= rank (w_start w) /\
    rank (w_start w) <= rank (w_end w) <= rank end_ /\
    exists k, 0 <= k <= 6 /\ w_end w = add_days (w_start w) k /\
              ((S i < length ws)%nat -> k = 6).
Proof.
  intros H. pose proof (chain_cal_end _ _ _ H) as He.
  induction H as [idx cursor k Hk Hc E|idx cursor week_end next ws Hc Ewe Hlt Enext H IH];
    intros i w Hi.
  - destruct i as [|i]; [|destruct i; discriminate]. injection Hi as <-. simpl.
    pose proof (add_days_rank cursor k ltac:(lia) Hc) as Hr. rewrite E in Hr.
    rewrite Z.add_0_r. split_and!; auto; try lia.
    exists k. split_and!; auto; lia.
  - pose proof (add_days_cal cursor 6 ltac:(lia) Hc) as Hc6.
    pose proof (add_days_rank cursor 6 ltac:(lia) Hc) as Hr6.
    rewrite <- Ewe in Hc6, Hr6.
    apply date_lt_rank in Hlt; auto.
    destruct i as [|i].
    + injection Hi as <-. simpl. rewrite Z.add_0_r.
      split_and!; auto; try lia.
      exists 6. split_and!; auto; lia.
    + simpl in Hi. destruct (IH i w Hi) as (Hw & Hs & Hwe & Hlo & Hhi & k & Hk & Ek & Hfull).
      pose proof (next_day_rank _ Hc6) as Hn. rewrite <- add_days_one, <- Enext in Hn.
      split_and!; auto; try lia.
      * rewrite Hw at 1. f_equal. lia.
      * exists k. split_and!; auto; try lia. intros Hlen. apply Hfull. simpl in Hlen. lia.
Qed.



Lemma chain_apart idx cursor ws :
  week_chain end_ events idx cursor ws ->
  forall (i j : nat) w w', (i < j)%nat -> ws !! i = Some w -> ws !! j = Some w' ->
    rank (w_end w) < rank (w_start w').
Proof.
  induction 1 as [idx cursor k Hk Hc E|idx cursor week_end next ws Hc Ewe Hlt Enext H IH];
    intros i j w w' Hij Hi Hj.
  - destruct j as [|j]; [lia|]. simpl in Hj. destruct j; discriminate.
  - destruct j as [|j]; [lia|]. simpl in Hj.
    destruct i as [|i].
    + injection Hi as <-. simpl.
      destruct (chain_lookup _ _ _ H j w' Hj) as (_ & _ & _ & Hlo & _).
      pose proof (add_days_cal cursor 6 ltac:(lia) Hc) as Hc6.
      pose proof (next_day_rank _ Hc6) as Hn.
      rewrite <- add_days_one, <- Ewe, <- Enext in Hn. lia.
    + simpl in Hi. apply (IH i j); auto. lia.
Qed.

Lemma chain_cover idx cursor ws :
  week_chain end_ events idx cursor ws ->
  forall d, cal_date d -> rank cursor <= rank d <= rank end_ ->
    exists w, w ∈ ws /\ rank (w_start w) <= rank d <= rank (w_end w).
Proof.
  induction 1 as [idx cursor k Hk Hc E|idx cursor week_end next ws Hc Ewe Hlt Enext H IH];
    intros d Hd Hr.
  - eexists. split; [apply list_elem_of_here|]. simpl. lia.
  - destruct (Z.le_gt_cases (rank d) (rank week_end)) as [Hle|Hgt].
    + eexists. split; [apply list_elem_of_here|]. simpl. lia.
    + pose proof (add_days_cal cursor 6 ltac:(lia) Hc) as Hc6. rewrite <- Ewe in Hc6.
      pose proof (next_day_gap week_end d Hc6 Hd Hgt) as Hn.
      rewrite <- add_days_one, <- Enext in Hn.
      destruct (IH d Hd ltac:(lia)) as (w & Hw & Hin).
      exists w. split; [now apply list_elem_of_further|assumption].
Qed.

End WeekChain.

(** ** Week partition coverage *)

Section WeekPartition.

Lemma rank_year_le a b : cal_date a -> cal_date b -> rank a <= rank b -> year a <= year b.
Proof.
  intros [Hma Hda] [Hmb Hdb] Hr. unfold rank in Hr.
  pose proof (days_in_month_bounds (year a) (month a)).
  pose proof (days_in_month_bounds (year b) (month b)).
  nia.
Qed.

Lemma valid_between lo hi d :
  valid_date lo -> valid_date hi -> cal_date d ->
  rank lo <= rank d <= rank hi -> valid_date d.
Proof.
  intros Hlo Hhi Hd [H1 H2].
  pose proof (rank_year_le lo d (valid_cal _ Hlo) Hd H1).
  pose proof (rank_year_le d hi Hd (valid_cal _ Hhi) H2).
  destruct Hlo as (? & _), Hhi as (? & _), Hd as (? & ?).
  unfold valid_date. lia.
Qed.

Lemma in_week_apart s1 e1 s2 e2 ev :
  valid_date e1 -> valid_date s2 -> rank e1 < rank s2 ->
  in_week s1 e1 ev = true -> in_week s2 e2 ev = true -> False.
Proof.
  intros He1 Hs2 Hlt H1 H2. unfold in_week in *.
  apply (str_ranges_disjoint _ _ _ _ _ (eq_trans (isoformat_lt e1 s2 He1 Hs2) (proj2 (date_lt_rank e1 s2 (valid_cal _ He1) (valid_cal _ Hs2)) Hlt)) H1 H2).
Qed.



End WeekPartition.

(** ** Month range resolution *)

Section MonthRangeFacts.

Example strict_fromisoformat_ex :
  strict_fromisoformat "2024-02-29" = Some (mkdate 2024 2 29) /\
  strict_fromisoformat "2023-02-29" = None /\
  strict_fromisoformat "yesterday" = None.
Proof. repeat split; reflexivity. Qed.

Lemma prev_day_cal d : cal_date d -> cal_date (prev_day d).
Proof.
  intros [Hm Hd]. unfold prev_day, cal_date.
  destruct (Z.ltb_spec 1 (day d)); simpl; [lia|].
  destruct (Z.ltb_spec 1 (month d)); simpl.
  - pose proof (days_in_month_bounds (year d) (month d - 1)). lia.
  - unfold days_in_month. simpl. lia.
Qed.

Lemma prev_day_rank d : cal_date d -> rank (prev_day d) < rank d.
Proof.
  intros [Hm Hd]. unfold prev_day, rank.
  destruct (Z.ltb_spec 1 (day d)); simpl; [lia|].
  destruct (Z.ltb_spec 1 (month d)); simpl.
  - pose proof (days_in_month_bounds (year d) (month d - 1)). lia.
  - lia.
Qed.

Lemma iter_prev_rank n d :
  cal_date d ->
  cal_date (Nat.iter n prev_day d) /\ rank (Nat.iter n prev_day d) <= rank d.
Proof.
  intros Hd. induction n as [|n [IHc IHr]]; simpl Nat.iter; [split; [assumption|lia]|].
  split; [now apply prev_day_cal|]. pose proof (prev_day_rank _ IHc). lia.
Qed.


Lemma add_days_neg d k :
  k < 0 -> cal_date d -> cal_date (add_days d k) /\ rank (add_days d k) <= rank d.
Proof.
  intros Hk Hd. unfold add_days. destruct (Z.leb_spec 0 k); [lia|].
  now apply iter_prev_rank.
Qed.




Lemma resolve_month_range_default fromisoformat today :
  cal_date today ->
  _resolve_month_range fromisoformat today None None =
    Some (mkdate (year today) (month today) 1,
          mkdate (year today) (month today)
                 (days_in_month (year today) (month today))).
Proof.
  intros [Hm Hd]. unfold _resolve_month_range. do 2 f_equal.
  change (add_days ?d (-1)) with (prev_day d).
  destruct (Z.eqb_spec (month today) 12) as [E|NE].
  - rewrite E. unfold prev_day, days_in_month. simpl. f_equal. lia.
  - unfold prev_day. simpl.
    destruct (Z.ltb_spec 1 (month today + 1)); [|lia].
    now replace (month today + 1 - 1) with (month today) by lia.
Qed.



End MonthRangeFacts.

(** ** Rows of one shard under [archive_event] *)

Section ArchiveRows.

Lemma archive_rows_fst event_id events :
  fst (archive_rows event_id events) = map (archive_item event_id) events.
Proof.
  induction events as [|item rest IH]; simpl; [reflexivity|].
  destruct (archive_rows event_id rest) as [updated later]. simpl in IH. subst updated.
  unfold archive_item. destruct (String.eqb (ev_id item) event_id); reflexivity.
Qed.

Lemma archive_item_id event_id item : ev_id (archive_item event_id item) = ev_id item.
Proof.
  unfold archive_item. destruct (String.eqb _ _); [|reflexivity].
  destruct (ev_archived item); reflexivity.
Qed.

Lemma archive_item_other event_id item :
  ev_id item <> event_id -> archive_item event_id item = item.
Proof.
  intros Hne. unfold archive_item.
  destruct (String.eqb_spec (ev_id item) event_id); [contradiction|reflexivity].
Qed.

Lemma archive_item_hit event_id item :
  ev_id item = event_id -> ev_archived (archive_item event_id item) = true.
Proof.
  intros E. unfold archive_item. rewrite (proj2 (String.eqb_eq _ _) E).
  destruct (ev_archived item) eqn:Ha; [assumption|reflexivity].
Qed.

Lemma archive_item_archived event_id item :
  ev_archived item = true -> archive_item event_id item = item.
Proof.
  intros Ha. unfold archive_item. rewrite Ha. now destruct (String.eqb _ _).
Qed.

Lemma archive_item_idem event_id item :
  archive_item event_id (archive_item event_id item) = archive_item event_id item.
Proof.
  destruct (String.eqb_spec (ev_id item) event_id) as [E|NE].
  - apply archive_item_archived. now apply archive_item_hit.
  - rewrite (archive_item_other _ item NE). exact (archive_item_other _ item NE).
Qed.


Lemma archive_rows_none event_id events :
  snd (archive_rows event_id events) = None <->
  Forall (fun item => ev_id item <> event_id) events.
Proof.
  induction events as [|item rest IH]; simpl.
  - split; [constructor|reflexivity].
  - destruct (archive_rows event_id rest) as [updated later]. simpl in IH.
    destruct (String.eqb_spec (ev_id item) event_id) as [E|NE]; simpl.
    + split; [destruct later; discriminate|]. intros H. inversion H; contradiction.
    + rewrite IH. split; [now constructor|]. intros H. now inversion H.
Qed.

Lemma archive_rows_some event_id events e :
  snd (archive_rows event_id events) = Some e ->
  e ∈ map (archive_item event_id) events /\ ev_id e = event_id /\ ev_archived e = true.
Proof.
  revert e. induction events as [|item rest IH]; simpl; intros e; [discriminate|].
  destruct (archive_rows event_id rest) as [updated later]. simpl in IH.
  destruct (String.eqb_spec (ev_id item) event_id) as [E|NE]; simpl.
  - destruct later as [e'|].
    + intros [= <-]. destruct (IH e' eq_refl) as (Hin & Hid & Ha).
      split; [now apply list_elem_of_further|auto].
    + intros [= <-]. split; [|split].
      * replace (if ev_archived item then item else set_archived item)
          with (archive_item event_id item)
          by (unfold archive_item; now rewrite (proj2 (String.eqb_eq _ _) E)).
        apply list_elem_of_here.
      * destruct (ev_archived item); assumption.
      * destruct (ev_archived item) eqn:Ha; [assumption|reflexivity].
  - intros H. destruct (IH e H) as (Hin & Hid & Ha).
    split; [now apply list_elem_of_further|auto].
Qed.

Lemma archive_rows_idem event_id events :
  archive_rows event_id (map (archive_item event_id) events) =
  (map (archive_item event_id) events, snd (archive_rows event_id events)).
Proof.
  induction events as [|item rest IH]; simpl; [reflexivity|].
  rewrite IH. destruct (archive_rows event_id rest) as [updated later]. simpl.
  rewrite archive_item_id.
  destruct (String.eqb_spec (ev_id item) event_id) as [E|NE]; simpl.
  - assert (Ha := archive_item_hit event_id item E). rewrite Ha.
    f_equal. destruct later; [reflexivity|].
    unfold archive_item. rewrite (proj2 (String.eqb_eq _ _) E). reflexivity.
  - now rewrite archive_item_other.
Qed.

Lemma archive_rows_unchanged event_id events :
  snd (archive_rows event_id events) = None ->
  map (archive_item event_id) events = events.
Proof.
  rewrite archive_rows_none. induction 1 as [|item rest Hne _ IH]; simpl; [reflexivity|].
  now rewrite archive_item_other, IH.
Qed.

End ArchiveRows.

(** ** [archive_event] across the shards *)

Section ArchiveEvent.

Variable glob : gset Z -> list Z.

(** The listing shows the shard files that exist, each once. *)
Hypothesis glob_perm : forall X : gset Z, glob X ≡ₚ elements X.

Lemma glob_exists (store : Store) y : y ∈ glob (dom store) -> is_Some (store !! y).
Proof. rewrite glob_perm, elem_of_elements. apply elem_of_dom. Qed.

Lemma exists_glob (store : Store) y : is_Some (store !! y) -> y ∈ glob (dom store).
Proof. rewrite glob_perm, elem_of_elements. apply elem_of_dom. Qed.

Lemma load_existing y (store : Store) rows :
  store !! y = Some rows -> _load_raw_year y store = (store, rows).
Proof. intros H. unfold _load_raw_year. now rewrite H. Qed.

Lemma archive_in_cons y rest event_id (store : Store) rows :
  store !! y = Some rows ->
  archive_in (y :: rest) event_id store =
  match snd (archive_rows event_id rows) with
  | Some e => (<[y := map (archive_item event_id) rows]> store, Some e)
  | None => archive_in rest event_id store
  end.
Proof.
  intros H. simpl. rewrite (load_existing _ _ _ H).
  rewrite <- archive_rows_fst. destruct (archive_rows event_id rows) as [updated [e|]]; reflexivity.
Qed.

Lemma archive_in_cases ys event_id (store : Store) :
  (forall y, y ∈ ys -> is_Some (store !! y)) ->
  (archive_in ys event_id store = (store, None) /\
   forall y rows, y ∈ ys -> store !! y = Some rows ->
     Forall (fun item => ev_id item <> event_id) rows) \/
  (exists y rows e, y ∈ ys /\ store !! y = Some rows /\
     snd (archive_rows event_id rows) = Some e /\
     archive_in ys event_id store =
       (<[y := map (archive_item event_id) rows]> store, Some e)).
Proof.
  induction ys as [|y rest IH]; intros Hys.
  - left. split; [reflexivity|]. intros y rows Hy. inversion Hy.
  - destruct (Hys y ltac:(left)) as [rows Hrows].
    rewrite (archive_in_cons _ _ _ _ _ Hrows).
    destruct (snd (archive_rows event_id rows)) as [e|] eqn:Hfound.
    + right. exists y, rows, e. split_and!; auto. left.
    + destruct IH as [[Hnone Hall]|(y' & rows' & e & Hy' & Hl & Hf & Hres)].
      { intros y' Hy'. apply Hys. now right. }
      * left. split; [assumption|]. intros y' rows' Hy' Hl.
        apply elem_of_cons in Hy' as [->|Hy']; [|eauto].
        rewrite Hrows in Hl. injection Hl as <-. now apply archive_rows_none.
      * right. exists y', rows', e. split_and!; auto. now right.
Qed.

Lemma archive_in_keeps ys event_id (store : Store) y rows :
  (forall y, y ∈ ys -> is_Some (store !! y)) ->
  store !! y = Some rows -> snd (archive_rows event_id rows) = None ->
  fst (archive_in ys event_id store) !! y = Some rows.
Proof.
  intros Hys Hl Hnone.
  destruct (archive_in_cases ys event_id store Hys)
    as [[Hn _]|(y' & rows' & e & _ & Hl' & Hf & Hr)]; [rewrite Hn|rewrite Hr]; simpl; [assumption|].
  destruct (decide (y' = y)) as [->|Hne].
  - rewrite Hl in Hl'. injection Hl' as <-. congruence.
  - now rewrite lookup_insert_ne.
Qed.

Lemma archive_in_dom ys event_id (store : Store) :
  (forall y, y ∈ ys -> is_Some (store !! y)) ->
  dom (fst (archive_in ys event_id store)) = dom store.
Proof.
  intros Hys.
  destruct (archive_in_cases ys event_id store Hys)
    as [[Hn _]|(y' & rows' & e & _ & Hl' & Hf & Hr)]; [rewrite Hn|rewrite Hr]; simpl; [reflexivity|].
  rewrite dom_insert_L. apply subseteq_union_1_L, singleton_subseteq_l.
  now apply elem_of_dom_2 in Hl'.
Qed.

Lemma archive_in_idem ys event_id (store : Store) :
  (forall y, y ∈ ys -> is_Some (store !! y)) ->
  archive_in ys event_id (fst (archive_in ys event_id store)) =
  archive_in ys event_id store.
Proof.
  induction ys as [|y rest IH]; intros Hys; [reflexivity|].
  destruct (Hys y ltac:(left)) as [rows Hrows].
  assert (Hrest : forall y, y ∈ rest -> is_Some (store !! y))
    by (intros y' Hy'; apply Hys; now right).
  rewrite (archive_in_cons _ _ _ _ _ Hrows).
  destruct (snd (archive_rows event_id rows)) as [e|] eqn:Hfound.
  - cbn [fst].
    rewrite (archive_in_cons y rest event_id _ _ (lookup_insert_eq store y _)).
    rewrite <- (archive_rows_fst event_id (map _ rows)), archive_rows_idem.
    cbn [fst snd]. rewrite Hfound, insert_insert_eq. reflexivity.
  - rewrite (archive_in_cons y rest event_id _ _
               (archive_in_keeps rest _ _ _ _ Hrest Hrows Hfound)).
    rewrite Hfound. now apply IH.
Qed.

Lemma archive_event_idem event_id (store : Store) :
  archive_event glob event_id (fst (archive_event glob event_id store)) =
  archive_event glob event_id store.
Proof.
  unfold archive_event.
  rewrite archive_in_dom by (intros y; apply glob_exists).
  apply archive_in_idem. intros y; apply glob_exists.
Qed.

(** The two ways a call of [archive_event] can end. *)
Lemma archive_event_cases event_id (store : Store) :
  (archive_event glob event_id store = (store, None) /\
   forall y rows, store !! y = Some rows ->
     Forall (fun item => ev_id item <> event_id) rows) \/
  (exists y rows e, store !! y = Some rows /\
     snd (archive_rows event_id rows) = Some e /\
     archive_event glob event_id store =
       (<[y := map (archive_item event_id) rows]> store, Some e)).
Proof.
  unfold archive_event.
  destruct (archive_in_cases (glob (dom store)) event_id store)
    as [[Hnone Hall]|(y & rows & e & _ & Hl & Hf & Hres)].
  { intros y; apply glob_exists. }
  - left. split; [assumption|]. intros y rows Hl. apply (Hall y); [|assumption].
    apply exists_glob. eauto.
  - right. eauto 10.
Qed.

(** C5. When some shard holds a row with the id, a second
    [archive_event] for the same id leaves the directory as the first
    call left it and returns the same archived event. *)
Theorem archive_event_idempotent event_id (store : Store) :
  (exists y rows item, store !! y = Some rows /\ item ∈ rows /\ ev_id item = event_id) ->
  exists store1 e,
    archive_event glob event_id store = (store1, Some e) /\
    ev_id e = event_id /\ ev_archived e = true /\
    archive_event glob event_id store1 = (store1, Some e).
Proof.
  intros (y & rows & item & Hl & Hin & Hid).
  destruct (archive_event_cases event_id store)
    as [[_ Hall]|(y' & rows' & e & Hl' & Hf & Hres)].
  - exfalso. specialize (Hall y rows Hl). rewrite Forall_forall in Hall.
    now apply (Hall item).
  - exists (<[y' := map (archive_item event_id) rows']> store), e.
    destruct (archive_rows_some _ _ _ Hf) as (_ & He & Ha).
    split_and!; auto.
    pose proof (archive_event_idem event_id store) as Hidem.
    rewrite Hres in Hidem. exact Hidem.
Qed.

End ArchiveEvent.

Lemma archive_event_idempotent_witness :
  (forall X : gset Z, glob_elements X ≡ₚ elements X) /\
  (exists y rows item, example_store !! y = Some rows /\ item ∈ rows /\ ev_id item = "e1"%string) /\
  exists store1 e,
    archive_event glob_elements "e1" example_store = (store1, Some e) /\
    ev_id e = "e1"%string /\ ev_archived e = true /\
    archive_event glob_elements "e1" store1 = (store1, Some e).
Proof.
  assert (Hglob : forall X : gset Z, glob_elements X ≡ₚ elements X) by reflexivity.
  assert (Hrow : exists y rows item,
             example_store !! y = Some rows /\ item ∈ rows /\ ev_id item = "e1"%string).
  { exists 2025, [example_event], example_event.
    split; [reflexivity|]. split; [apply list_elem_of_here|reflexivity]. }
  split; [exact Hglob|]. split; [exact Hrow|].
  exact (archive_event_idempotent glob_elements Hglob "e1" example_store Hrow).
Defined.


(** ** Querying the store *)

Section Sorted.

Context {A : Type} (le : A -> A -> bool).

Lemma insert_sorted_perm x (l : list A) : insert_sorted le x l ≡ₚ x :: l.
Proof.
  induction l as [|y l IH]; simpl; [reflexivity|].
  destruct (le x y); [reflexivity|]. rewrite IH. apply Permutation_swap.
Qed.

Lemma sorted_perm (l : list A) : sorted le l ≡ₚ l.
Proof.
  induction l as [|x l IH]; simpl; [reflexivity|].
  now rewrite insert_sorted_perm, IH.
Qed.

End Sorted.

Section GetEvents.

Variable glob : gset Z -> list Z.
Hypothesis glob_perm : forall X : gset Z, glob X ≡ₚ elements X.

Lemma str_lt_false a b : str_lt a b = false <-> str_le b a = true.
Proof.
  unfold str_lt, str_le, String.ltb, String.leb.
  rewrite (String.compare_antisym a b).
  destruct (String.compare b a); simpl; split; congruence.
Qed.

Lemma truthy_str_spec s : truthy_str s = true <-> s <> EmptyString.
Proof. destruct s; simpl; split; congruence. Qed.

Lemma tags_intersection_spec tags event_tags :
  tags_intersection tags event_tags <> [] <->
  exists t, t ∈ tags /\ t ∈ event_tags.
Proof.
  unfold tags_intersection. split.
  - intros Hne. destruct (List.filter _ tags) as [|t l] eqn:E; [contradiction|].
    assert (Hin : In t (List.filter (fun t => existsb (String.eqb t) event_tags) tags))
      by (rewrite E; now left).
    apply filter_In in Hin as [Hin Hex]. apply existsb_exists in Hex as (t' & Hin' & Heq).
    apply String.eqb_eq in Heq. subst t'. exists t. now rewrite !list_elem_of_In.
  - intros (t & Hin & Hin') E. rewrite list_elem_of_In in Hin, Hin'.
    assert (In t (List.filter (fun t => existsb (String.eqb t) event_tags) tags)) as H.
    { apply filter_In. split; [assumption|]. apply existsb_exists.
      exists t. split; [assumption|apply String.eqb_refl]. }
    rewrite E in H. exact H.
Qed.

Lemma in_range_spec start_date end_date tags include_archived event :
  in_range start_date end_date
           (match tags with Some (t :: ts) => t :: ts | _ => [] end)
           include_archived event = true <->
  matches_query start_date end_date tags include_archived event.
Proof.
  unfold in_range, matches_query.
  set (tl := match tags with Some (t :: ts) => t :: ts | _ => [] end).
  assert (Htags : (forall ts, tags = Some ts -> ts <> [] ->
                     exists t, t ∈ ts /\ t ∈ ev_tags event) <->
                  (tl = [] \/ tags_intersection tl (ev_tags event) <> [])).
  { subst tl. destruct tags as [[|t ts]|]; split; auto.
    - intros _ ts [= <-] Hne. contradiction.
    - intros H. right. apply tags_intersection_spec. now apply H.
    - intros [H|H] ts' [= <-] _; [discriminate|]. now apply tags_intersection_spec.
    - intros _ ts. discriminate. }
  assert (Hstart : (forall s, start_date = Some s -> s <> EmptyString ->
                      str_le s (ev_date event) = true) <->
                   match start_date with
                   | Some s => truthy_str s && str_lt (ev_date event) s
                   | None => false end = false).
  { destruct start_date as [s|]; [|split; [reflexivity|intros _ s; discriminate]].
    destruct (truthy_str s) eqn:Ht; simpl.
    - rewrite str_lt_false. apply truthy_str_spec in Ht. split; [auto|].
      now intros H s' [= <-] _.
    - split; [reflexivity|]. intros _ s' [= <-] Hne.
      apply truthy_str_spec in Hne. congruence. }
  assert (Hend : (forall s, end_date = Some s -> s <> EmptyString ->
                    str_le (ev_date event) s = true) <->
                 match end_date with
                 | Some s => truthy_str s && str_lt s (ev_date event)
                 | None => false end = false).
  { destruct end_date as [s|]; [|split; [reflexivity|intros _ s; discriminate]].
    destruct (truthy_str s) eqn:Ht; simpl.
    - rewrite str_lt_false. apply truthy_str_spec in Ht. split; [auto|].
      now intros H s' [= <-] _.
    - split; [reflexivity|]. intros _ s' [= <-] Hne.
      apply truthy_str_spec in Hne. congruence. }
  rewrite Htags, Hstart, Hend. clear Htags Hstart Hend. clearbody tl.
  generalize (match start_date with
              | Some s => truthy_str s && str_lt (ev_date event) s
              | None => false end).
  generalize (match end_date with
              | Some s => truthy_str s && str_lt s (ev_date event)
              | None => false end).
  generalize (tags_intersection tl (ev_tags event)).
  intros inter b_end b_start.
  destruct include_archived, (ev_archived event), b_start, b_end,
    tl as [|t ts], inter as [|i inter]; simpl; intuition congruence.
Qed.

Lemma load_years_existing ys (store : Store) :
  (forall y, y ∈ ys -> is_Some (store !! y)) ->
  load_years ys store = (store, flat_map (shard_rows store) ys).
Proof.
  induction ys as [|y rest IH]; intros Hys; [reflexivity|].
  destruct (Hys y ltac:(left)) as [rows Hrows]. simpl.
  unfold load_year. rewrite (load_existing _ _ _ Hrows).
  rewrite IH by (intros y' Hy'; apply Hys; now right).
  unfold shard_rows. now rewrite Hrows.
Qed.

Lemma sorted_paths_perm (store : Store) :
  sorted_paths (glob (dom store)) ≡ₚ elements (dom store).
Proof. unfold sorted_paths. now rewrite sorted_perm, glob_perm. Qed.

Lemma get_events_all start_date end_date tags include_archived (store : Store) :
  get_events glob None start_date end_date tags include_archived store =
  (store,
   List.filter (in_range start_date end_date
                  (match tags with Some (t :: ts) => t :: ts | _ => [] end)
                  include_archived)
               (candidates glob None store)).
Proof.
  unfold get_events, candidates. rewrite load_years_existing; [reflexivity|].
  intros y. rewrite sorted_paths_perm, elem_of_elements. apply elem_of_dom.
Qed.

Lemma get_events_year y start_date end_date tags include_archived (store : Store) :
  snd (get_events glob (Some y) start_date end_date tags include_archived store) =
  List.filter (in_range start_date end_date
                 (match tags with Some (t :: ts) => t :: ts | _ => [] end)
                 include_archived)
              (candidates glob (Some y) store).
Proof.
  unfold get_events, candidates, shard_rows, load_year, _load_raw_year.
  destruct (store !! y); reflexivity.
Qed.

(** C3. [get_events] returns, in their order, exactly the candidate rows
    (those of the requested shard, or of every existing shard once) that
    pass every predicate whose argument is given: not archived unless
    [include_archived], sharing a tag with [tags], and with the date
    string between [start_date] and [end_date] in the string order. *)
Theorem get_events_conjunctive year start_date end_date tags include_archived
    (store : Store) :
  exists keep : TimelineEvent -> bool,
    (forall event, keep event = true <->
       matches_query start_date end_date tags include_archived event) /\
    snd (get_events glob year start_date end_date tags include_archived store) =
      List.filter keep (candidates glob year store) /\
    (year = None -> sorted_paths (glob (dom store)) ≡ₚ elements (dom store)).
Proof.
  exists (in_range start_date end_date
            (match tags with Some (t :: ts) => t :: ts | _ => [] end) include_archived).
  split; [intros event; apply in_range_spec|]. split.
  - destruct year as [y|]; [apply get_events_year|now rewrite get_events_all].
  - intros _. apply sorted_paths_perm.
Qed.

End GetEvents.

Lemma get_events_conjunctive_witness :
  (forall X : gset Z, glob_elements X ≡ₚ elements X) /\
  exists keep : TimelineEvent -> bool,
    (forall event, keep event = true <->
       matches_query (Some "2025-01-01"%string) (Some "2025-12-31"%string)
                     (Some ["bjj"%string]) false event) /\
    snd (get_events glob_elements None (Some "2025-01-01"%string)
           (Some "2025-12-31"%string) (Some ["bjj"%string]) false example_store) =
      List.filter keep (candidates glob_elements None example_store) /\
    (@None Z = None ->
     sorted_paths (glob_elements (dom example_store)) ≡ₚ elements (dom example_store)).
Proof.
  assert (Hglob : forall X : gset Z, glob_elements X ≡ₚ elements X) by reflexivity.
  split; [exact Hglob|].
  exact (get_events_conjunctive glob_elements Hglob None (Some "2025-01-01"%string)
           (Some "2025-12-31"%string) (Some ["bjj"%string]) false example_store).
Defined.

(** ** The rows of the directory *)

Section AllRows.

Lemma filter_perm {A} (f : A -> bool) (l l' : list A) :
  l ≡ₚ l' -> List.filter f l ≡ₚ List.filter f l'.
Proof.
  induction 1 as [|x l l' _ IH|x y l|l l' l'' _ IH1 _ IH2]; simpl.
  - reflexivity.
  - destruct (f x); [now constructor|assumption].
  - destruct (f x), (f y); try reflexivity. apply Permutation_swap.
  - now transitivity (List.filter f l').
Qed.

Lemma flat_map_agree {A B} (f g : A -> list B) (l : list A) :
  (forall x, x ∈ l -> f x = g x) -> flat_map f l = flat_map g l.
Proof.
  induction l as [|x l IH]; intros H; simpl; [reflexivity|].
  rewrite (H x) by left. rewrite IH; [reflexivity|]. intros y Hy. apply H. now right.
Qed.

Lemma all_rows_split (store : Store) y rows :
  store !! y = Some rows -> all_rows store ≡ₚ rows ++ rest_rows store y.
Proof.
  intros Hl. unfold all_rows, rest_rows.
  assert (Hy : y ∈ dom store) by (apply elem_of_dom; eauto).
  rewrite (union_difference_singleton_L y (dom store) Hy) at 1.
  rewrite elements_union_singleton by set_solver.
  simpl. unfold shard_rows at 1. now rewrite Hl.
Qed.

Lemma rest_rows_insert (store : Store) y rows :
  rest_rows (<[y := rows]> store) y = rest_rows store y.
Proof.
  unfold rest_rows.
  assert (dom (<[y := rows]> store) ∖ {[y]} = dom store ∖ {[y]}) as ->
    by (rewrite dom_insert_L; set_solver).
  apply flat_map_agree. intros y' Hy'.
  apply elem_of_elements, elem_of_difference in Hy' as [_ Hne].
  unfold shard_rows. rewrite lookup_insert_ne; [reflexivity|]. set_solver.
Qed.

Lemma rest_rows_absent (store : Store) y :
  store !! y = None -> rest_rows store y = all_rows store.
Proof.
  intros Hl. unfold rest_rows, all_rows.
  apply not_elem_of_dom in Hl.
  now assert (dom store ∖ {[y]} = dom store) as -> by set_solver.
Qed.

Lemma all_rows_insert (store : Store) y rows :
  all_rows (<[y := rows]> store) ≡ₚ rows ++ rest_rows store y.
Proof.
  rewrite (all_rows_split _ y rows) by apply lookup_insert_eq.
  now rewrite rest_rows_insert.
Qed.

(** Appending rows to a shard appends them to the directory. *)
Lemma all_rows_append (store : Store) y l :
  all_rows (<[y := shard_rows store y ++ l]> store) ≡ₚ all_rows store ++ l.
Proof.
  rewrite all_rows_insert. unfold shard_rows.
  destruct (store !! y) as [rows|] eqn:Hl; simpl.
  - rewrite (all_rows_split _ _ _ Hl).
    rewrite <- !app_assoc. apply Permutation_app_head, Permutation_app_comm.
  - rewrite (rest_rows_absent _ _ Hl). apply Permutation_app_comm.
Qed.

(** Rewriting a shard row by row. *)
Lemma all_rows_map_shard (store : Store) y rows (f : TimelineEvent -> TimelineEvent) :
  store !! y = Some rows ->
  all_rows (<[y := map f rows]> store) ≡ₚ map f rows ++ rest_rows store y /\
  all_rows store ≡ₚ rows ++ rest_rows store y.
Proof. intros Hl. split; [apply all_rows_insert|now apply all_rows_split]. Qed.

Variable glob : gset Z -> list Z.
Hypothesis glob_perm : forall X : gset Z, glob X ≡ₚ elements X.

Lemma candidates_all_rows (store : Store) : candidates glob None store ≡ₚ all_rows store.
Proof.
  unfold candidates, all_rows. now rewrite (sorted_paths_perm glob glob_perm).
Qed.

Lemma query_all_rows (store : Store) : query_all glob store ≡ₚ all_rows store.
Proof.
  unfold query_all. rewrite (get_events_all glob glob_perm). simpl.
  rewrite <- candidates_all_rows.
  assert (forall l : list TimelineEvent,
             List.filter (in_range None None [] true) l = l) as ->; [|reflexivity].
  induction l as [|x l IH]; simpl; [reflexivity|now rewrite IH].
Qed.

Lemma query_default_rows (store : Store) :
  query_default glob store ≡ₚ List.filter active (all_rows store).
Proof.
  unfold query_default. rewrite (get_events_all glob glob_perm). simpl.
  rewrite <- (filter_perm active _ _ (candidates_all_rows store)).
  assert (forall l : list TimelineEvent,
             List.filter (in_range None None [] false) l = List.filter active l) as ->;
    [|reflexivity].
  induction l as [|x l IH]; simpl; [reflexivity|].
  unfold in_range at 1, active at 1. simpl. rewrite IH.
  now destruct (ev_archived x).
Qed.

End AllRows.

(** ** Correcting an event *)

Section CorrectEvent.

Variable fromisoformat : string -> option date.
Variable glob : gset Z -> list Z.
Hypothesis glob_perm : forall X : gset Z, glob X ≡ₚ elements X.

Lemma add_event_spec event (store : Store) :
  add_event fromisoformat event store =
  match fromisoformat (ev_date event) with
  | None => Raises store
  | Some d => Returns (<[year d := shard_rows store (year d) ++ [event]]> store) event
  end.
Proof.
  unfold add_event, _load_raw_year, _save_year, shard_rows.
  destruct (fromisoformat (ev_date event)) as [d|]; [|reflexivity].
  destruct (store !! year d); simpl; [reflexivity|].
  now rewrite insert_insert_eq.
Qed.

Lemma active_in_filter (event : TimelineEvent) l :
  event ∈ List.filter active l <-> event ∈ l /\ ev_archived event = false.
Proof.
  rewrite !list_elem_of_In, filter_In. unfold active.
  destruct (ev_archived event); simpl; intuition congruence.
Qed.


End CorrectEvent.



(** ** Sequences of calls never edit a row *)

Section Evolves.








Variable fromisoformat : string -> option date.
Variable glob : gset Z -> list Z.
Hypothesis glob_perm : forall X : gset Z, glob X ≡ₚ elements X.





End Evolves.

(** ** Sequences of calls keep every untargeted event *)

Section AppendOnly.

Variable fromisoformat : string -> option date.
Variable glob : gset Z -> list Z.
Hypothesis glob_perm : forall X : gset Z, glob X ≡ₚ elements X.









End AppendOnly.


(** ** The efficiency score of the task summary *)

Section EfficiencyScore.

Variable round2 : Q -> Q.

(** Where the score of the result comes from: the collaborator's own
    number, the fallback when the collaborator's dictionary holds [None]
    under the key, and the initial [0.0] in every other case. *)
Lemma efficiency_score_source task_engine :
  efficiency_score (summarize_month_tasks round2 task_engine) =
  match summarize_month task_engine with
  | Some (Some u) =>
    match u_efficiency_score u with
    | Some (Some q) => Some (Some q)
    | Some None =>
      let c := Z.of_nat (length (default [] (u_completed u))) in
      let o := Z.of_nat (length (default [] (u_overdue u))) in
      Some (Some (round2 (inject_Z c / inject_Z (if c + o =? 0 then 1 else c + o))%Q))
    | None => Some (Some 0%Q)
    end
  | _ => Some (Some 0%Q)
  end.
Proof.
  unfold summarize_month_tasks.
  destruct (summarize_month task_engine) as [[u|]|]; simpl;
    try (destruct (weekly_breakdown task_engine), (breakdown_by_week task_engine);
         reflexivity).
  unfold summary_update; simpl.
  destruct (u_efficiency_score u) as [[q|]|]; simpl;
    destruct (weekly_breakdown task_engine), (breakdown_by_week task_engine);
    reflexivity.
Qed.

(** C7 on two collaborators that supply no score: one with the accessors
    only and one completed task, one whose monthly summary lists two
    completed tasks and one overdue.  The result carries the initial
    [0.0], where the specification asks for 1 and for 2/3. *)
Theorem summarize_month_tasks_keeps_zero :
  efficiency_score (summarize_month_tasks round2 accessor_engine) = Some (Some 0%Q) /\
  (expected_efficiency (summarize_month_tasks round2 accessor_engine) == 1)%Q /\
  efficiency_score (summarize_month_tasks round2 scoreless_engine) = Some (Some 0%Q) /\
  (expected_efficiency (summarize_month_tasks round2 scoreless_engine) == 2 # 3)%Q.
Proof.
  split; [reflexivity|]. split; [reflexivity|]. split; reflexivity.
Qed.

End EfficiencyScore.

(** ** Ordered dictionaries *)

Section Dicts.

Context {A : Type}.

Lemma dict_get_append key key' (x : A) d :
  dict_get key' (dict_append key x d) =
  if String.eqb key key' then Some (default [] (dict_get key d) ++ [x])
  else dict_get key' d.
Proof.
  induction d as [|[k v] d IH]; simpl.
  - destruct (String.eqb key key'); reflexivity.
  - destruct (String.eqb_spec k key) as [->|Hk]; simpl.
    + destruct (String.eqb_spec key key'); reflexivity.
    + rewrite IH. destruct (String.eqb_spec key key') as [<-|Hkk'].
      * destruct (String.eqb_spec k key); [contradiction|reflexivity].
      * reflexivity.
Qed.

Lemma dict_append_keys key (x : A) d :
  map fst (dict_append key x d) =
  match dict_get key d with
  | Some _ => map fst d
  | None => map fst d ++ [key]
  end.
Proof.
  induction d as [|[k v] d IH]; simpl; [reflexivity|].
  destruct (String.eqb_spec k key) as [->|Hk]; simpl; [reflexivity|].
  rewrite IH. now destruct (dict_get key d).
Qed.

Lemma dict_get_none key (d : list (string * list A)) :
  dict_get key d = None <-> key ∉ map fst d.
Proof.
  induction d as [|[k v] d IH]; simpl.
  - split; [intros _ H; inversion H|reflexivity].
  - rewrite not_elem_of_cons, <- IH.
    destruct (String.eqb_spec k key); split; try congruence; intuition congruence.
Qed.

Lemma dict_append_nodup key (x : A) d :
  NoDup (map fst d) -> NoDup (map fst (dict_append key x d)).
Proof.
  intros Hd. rewrite dict_append_keys.
  destruct (dict_get key d) eqn:E; [assumption|].
  apply NoDup_app. split; [assumption|]. split.
  - intros k Hk Hk'. apply list_elem_of_singleton in Hk'. subst k.
    exact (proj1 (dict_get_none key d) E Hk).
  - apply NoDup_singleton.
Qed.

Lemma dict_get_elem key (v : list A) d :
  NoDup (map fst d) -> (key, v) ∈ d <-> dict_get key d = Some v.
Proof.
  induction d as [|[k w] d IH]; simpl; intros Hd.
  - split; [intros H; inversion H|discriminate].
  - apply NoDup_cons in Hd as [Hk Hd]. rewrite elem_of_cons, (IH Hd).
    destruct (String.eqb_spec k key) as [->|Hne].
    + split.
      * intros [[= ->]|H]; [reflexivity|].
        exfalso. apply Hk. apply (proj2 (IH Hd)) in H.
        change key with (fst (key, v)). now apply list_elem_of_fmap_2.
      * intros [= ->]. now left.
    + split; [intros [[= E _]|H]; [congruence|assumption]|now right].
Qed.

End Dicts.

(** ** Epic progression *)

Section Epics.

Lemma dict_append_nonempty {A} key (x : A) d :
  Forall (fun kv => snd kv <> []) d ->
  Forall (fun kv => snd kv <> []) (dict_append key x d).
Proof.
  induction 1 as [|[k v] d Hv Hd IH]; simpl.
  - constructor; [discriminate|constructor].
  - destruct (String.eqb k key).
    + constructor; [|exact Hd]. simpl. now destruct v.
    + constructor; [exact Hv|exact IH].
Qed.

Lemma group_tags_ok event tags groups group_of :
  groups_ok groups group_of ->
  groups_ok
    (fold_left (fun groups tag =>
                  match epic_tags tag with
                  | Some epic_key => dict_append epic_key event groups
                  | None => groups
                  end) tags groups)
    (fun name => group_of name ++
       flat_map (fun tag => if decide (epic_tags tag = Some name) then [event] else [])
                tags).
Proof.
  revert groups group_of. induction tags as [|tag tags IH]; intros groups group_of Hok.
  - simpl. destruct Hok as (H1 & H2 & H3). split_and!; auto.
    intros name. now rewrite app_nil_r.
  - simpl fold_left.
    set (groups' := match epic_tags tag with
                    | Some epic_key => dict_append epic_key event groups
                    | None => groups end).
    assert (Hok' : groups_ok groups'
              (fun name => group_of name ++
                 (if decide (epic_tags tag = Some name) then [event] else []))).
    { subst groups'. destruct Hok as (H1 & H2 & H3).
      destruct (epic_tags tag) as [key|] eqn:Et.
      - split_and!; [now apply dict_append_nodup|now apply dict_append_nonempty|].
        intros name. rewrite dict_get_append.
        destruct (String.eqb_spec key name) as [->|Hne].
        + rewrite decide_True by reflexivity. simpl. now rewrite H3.
        + rewrite decide_False by congruence. now rewrite app_nil_r, H3.
      - split_and!; auto. intros name. rewrite decide_False by discriminate.
        now rewrite app_nil_r. }
    specialize (IH groups' _ Hok').
    destruct IH as (H1 & H2 & H3). split_and!; auto.
    intros name. rewrite H3. simpl. now rewrite app_assoc.
Qed.

Lemma group_events_ok_from events groups group_of :
  groups_ok groups group_of ->
  groups_ok (fold_left (fun groups event => group_event event groups) events groups)
            (fun name => group_of name ++ mentions name events).
Proof.
  revert groups group_of. induction events as [|event events IH]; intros groups group_of Hok.
  - simpl. destruct Hok as (H1 & H2 & H3). split_and!; auto.
    intros name. unfold mentions. simpl. now rewrite app_nil_r.
  - simpl fold_left.
    specialize (IH _ _ (group_tags_ok event (ev_tags event) groups group_of Hok)).
    destruct IH as (H1 & H2 & H3). split_and!; auto.
    intros name. rewrite H3. unfold mentions. simpl. now rewrite app_assoc.
Qed.

Lemma group_events_ok events : groups_ok (group_events events) (fun name => mentions name events).
Proof.
  apply (group_events_ok_from events [] (fun _ => [])).
  split_and!; [constructor|constructor|reflexivity].
Qed.

(** C8. The records of [detect_epic_progression] are exactly those of
    the epics some event mentions, one for each; the group behind a
    record holds every event once for each of its tags that maps to the
    epic, so an event tagged ["robotics"] and ["omega1"] is in the group
    of "Robotics: Omega-1" twice; the record gives the size of the group
    in its progress text and the titles of the group as milestones. *)
Theorem detect_epic_progression_groups events :
  (forall r, r ∈ detect_epic_progression events <->
     mentions (epic r) events <> [] /\
     r = mkEpic (epic r)
           (str_of_Z (Z.of_nat (length (mentions (epic r) events)))
              ++ " updates recorded.")%string
           (titles (mentions (epic r) events))) /\
  NoDup (map epic (detect_epic_progression events)) /\
  (forall event, ev_tags event = ["robotics"; "omega1"]%string ->
     mentions "Robotics: Omega-1" [event] = [event; event] /\
     detect_epic_progression [event] =
       [mkEpic "Robotics: Omega-1" "2 updates recorded."
               (titles [event; event])]).
Proof.
  destruct (group_events_ok events) as (Hnodup & Hne & Hget).
  split_and!.
  - intros r. unfold detect_epic_progression. rewrite list_elem_of_fmap. split.
    + intros ([name group] & -> & Hin). simpl.
      pose proof Hin as Hin'. apply (dict_get_elem _ _ _ Hnodup) in Hin'.
      specialize (Hget name). rewrite Hin' in Hget. simpl in Hget. subst group.
      split; [|reflexivity].
      rewrite Forall_forall in Hne. apply (Hne _ Hin).
    + intros [Hm ->]. exists (epic r, mentions (epic r) events). split; [reflexivity|].
      apply (dict_get_elem _ _ _ Hnodup).
      specialize (Hget (epic r)). destruct (dict_get (epic r) (group_events events)).
      * simpl in Hget. now subst.
      * simpl in Hget. congruence.
  - unfold detect_epic_progression. rewrite map_map. simpl. exact Hnodup.
  - intros event Htags. unfold detect_epic_progression, group_events, group_event, mentions.
    simpl. rewrite Htags. simpl. split; reflexivity.
Qed.

Lemma detect_epic_progression_groups_witness :
  ev_tags robotics_event = ["robotics"; "omega1"]%string /\
  mentions "Robotics: Omega-1" [robotics_event] = [robotics_event; robotics_event] /\
  detect_epic_progression [robotics_event] =
    [mkEpic "Robotics: Omega-1" "2 updates recorded."
            ["Robotics sprint"; "Robotics sprint"]%string].
Proof.
  split; [reflexivity|].
  exact (proj2 (proj2 (detect_epic_progression_groups [robotics_event]))
           robotics_event eq_refl).
Defined.

End Epics.

(** ** Monthly themes *)

Section Themes.

Lemma sorted_already {A} (le : A -> A -> bool) (l : list A) :
  (forall x y, x ∈ l -> y ∈ l -> le x y = true) -> sorted le l = l.
Proof.
  induction l as [|x l IH]; intros H; simpl; [reflexivity|].
  rewrite IH by (intros a b Ha Hb; apply H; now right).
  destruct l as [|y l]; simpl; [reflexivity|].
  rewrite H; [reflexivity|left|right; left].
Qed.

Lemma dict_incr_fresh key (d : list (string * Z)) :
  key ∉ map fst d -> dict_incr key d = d ++ [(key, 1)].
Proof.
  induction d as [|[k v] d IH]; simpl; intros Hk; [reflexivity|].
  apply not_elem_of_cons in Hk as [Hne Hk].
  destruct (String.eqb_spec k key); [congruence|]. now rewrite IH.
Qed.

Lemma count_tags_from (events : list TimelineEvent) counts :
  fold_left (fun counts event =>
               fold_left (fun counts tag => dict_incr tag counts) (ev_tags event) counts)
            events counts =
  fold_left (fun counts tag => dict_incr tag counts) (tags_seen events) counts.
Proof.
  revert counts. induction events as [|event events IH]; intros counts; [reflexivity|].
  unfold tags_seen. simpl. rewrite fold_left_app. apply IH.
Qed.

Lemma count_fresh_tags tags counts :
  NoDup (map fst counts ++ tags) ->
  fold_left (fun counts tag => dict_incr tag counts) tags counts =
  counts ++ map (fun tag => (tag, 1)) tags.
Proof.
  revert counts. induction tags as [|tag tags IH]; intros counts Hnd; simpl.
  - now rewrite app_nil_r.
  - assert (Hfresh : tag ∉ map fst counts).
    { apply NoDup_app in Hnd as (_ & Hdis & _). intros Hin.
      apply (Hdis tag Hin). left. }
    rewrite (dict_incr_fresh _ _ Hfresh). rewrite IH.
    + now rewrite <- app_assoc.
    + rewrite map_app. simpl. now rewrite <- app_assoc.
Qed.

Lemma count_tags_nodup events :
  NoDup (tags_seen events) ->
  count_tags events = map (fun tag => (tag, 1)) (tags_seen events).
Proof.
  intros Hnd. unfold count_tags. rewrite count_tags_from.
  now rewrite count_fresh_tags.
Qed.

Lemma count_tags_depends events1 events2 :
  map ev_tags events1 = map ev_tags events2 -> count_tags events1 = count_tags events2.
Proof.
  intros H. unfold count_tags. rewrite !count_tags_from. unfold tags_seen.
  now rewrite !flat_map_concat_map, H.
Qed.

Lemma omap_depends {A B} (f : A -> option B) (l1 l2 : list A) :
  map f l1 = map f l2 -> omap f l1 = omap f l2.
Proof.
  revert l2. induction l1 as [|x l1 IH]; intros [|y l2] H; simpl in *; try discriminate;
    [reflexivity|].
  injection H as Hxy Hrest. rewrite Hxy.
  destruct (f y); [f_equal|]; apply IH; exact Hrest.
Qed.

(** C9. The themes are a function of the tags and moods of the events
    and of the motifs of the weeks, each taken in order, so two runs on
    identical sequences give the same list in the same order; and when no
    tag occurs twice the trending tags are the first three tags seen. *)
Theorem infer_monthly_themes_deterministic :
  (forall events1 events2 weekly_arcs1 weekly_arcs2,
     map ev_tags events1 = map ev_tags events2 ->
     map mood events1 = map mood events2 ->
     map week_motif weekly_arcs1 = map week_motif weekly_arcs2 ->
     infer_monthly_themes events1 weekly_arcs1 = infer_monthly_themes events2 weekly_arcs2) /\
  (forall events,
     NoDup (tags_seen events) ->
     trending_tags (count_tags events) = firstn 3 (tags_seen events)).
Proof.
  split.
  - intros events1 events2 weekly_arcs1 weekly_arcs2 Htags Hmood Hmotif.
    unfold infer_monthly_themes.
    rewrite (count_tags_depends _ _ Htags), (omap_depends _ _ _ Hmood),
      (omap_depends _ _ _ Hmotif).
    reflexivity.
  - intros events Hnd. rewrite (count_tags_nodup _ Hnd).
    generalize (tags_seen events). intros tags. unfold trending_tags.
    assert (Hnone : List.filter (fun item : string * Z => 1 <? snd item)
                      (map (fun tag => (tag, 1)) tags) = []).
    { induction tags as [|t tags IH]; simpl; [reflexivity|exact IH]. }
    rewrite Hnone. simpl.
    destruct tags as [|t tags]; [reflexivity|].
    change (map (fun tag => (tag, 1)) (t :: tags)) with
      ((t, 1) :: map (fun tag : string => (tag, 1)) tags) at 1.
    cbv iota. unfold by_count_desc. rewrite sorted_already.
    + now rewrite map_map, map_id.
    + intros x y Hx Hy.
      apply list_elem_of_fmap in Hx as (tx & -> & _).
      apply list_elem_of_fmap in Hy as (ty & -> & _). reflexivity.
Qed.

Lemma infer_monthly_themes_deterministic_witness :
  NoDup (tags_seen test_events) /\
  trending_tags (count_tags test_events) = ["celebration"; "robotics"; "omega1"]%string /\
  infer_monthly_themes test_events [] =
    ["Trending tags: celebration, omega1, robotics";
     "Emotional patterns: positive, focused, tired";
     "Progress in robotics"; "Progress in omega1"; "Progress in bjj";
     "Progress in training"]%string.
Proof.
  assert (Hnd : NoDup (tags_seen test_events)).
  { apply (bool_decide_unpack _). vm_compute. exact I. }
  split; [exact Hnd|]. split.
  - exact (proj2 infer_monthly_themes_deterministic test_events Hnd).
  - exact (proj1 infer_monthly_themes_deterministic test_events test_events [] []
             eq_refl eq_refl eq_refl).
Defined.

End Themes.

(** ** An empty list of events is taken for a missing one *)

Section EmptyEvents.

Variable fromisoformat : string -> option date.
Variable glob : gset Z -> list Z.
Hypothesis glob_perm : forall X : gset Z, glob X ≡ₚ elements X.
Variable round2 : Q -> Q.
Variable today : date.
Variable store : Store.
Variable weekly_arc_engine : WeeklyArcEngine.
Variable stitch : option (list TimelineEvent -> Stitched).
Variable task_engine : TaskEngine.
Variable audit : option (list TimelineEvent -> list string).

Lemma gather_default_events :
  cal_date today ->
  md_events <$> gather_month_events fromisoformat glob today store None None
  = Some (events_between glob store (month_first today) (month_last today)).
Proof.
  intros Hcal. unfold gather_month_events.
  rewrite (resolve_month_range_default fromisoformat today Hcal). reflexivity.
Qed.

Lemma generate_default_narrative weekly_arcs :
  cal_date today ->
  generate_month_narrative fromisoformat glob today store stitch None weekly_arcs =
  Some (narrative_from stitch
          (events_between glob store (month_first today) (month_last today)) weekly_arcs).
Proof.
  intros Hcal. unfold generate_month_narrative.
  pose proof (gather_default_events Hcal) as Hg.
  destruct (gather_month_events fromisoformat glob today store None None) as [md|];
    [|discriminate].
  simpl in Hg. injection Hg as ->. reflexivity.
Qed.

(** C10, as the code has it.  Each of the three functions takes an empty
    list of events for a missing one and queries the timeline again:
    [synthesize_weekly_arcs] the range it was given,
    [generate_month_narrative] the current calendar month, and
    [run_monthly_drift_audit] the whole directory, archived rows
    included.  So [construct_month_arc] over a range without events
    audits every row of the timeline and narrates the events of the
    current month. *)
Theorem empty_events_requery :
  (forall start_date end_date,
     synthesize_weekly_arcs fromisoformat glob today store weekly_arc_engine
       start_date end_date (Some []) =
     synthesize_weekly_arcs fromisoformat glob today store weekly_arc_engine
       start_date end_date None) /\
  (forall weekly_arcs,
     generate_month_narrative fromisoformat glob today store stitch (Some []) weekly_arcs =
     generate_month_narrative fromisoformat glob today store stitch None weekly_arcs) /\
  run_monthly_drift_audit glob store audit (Some []) =
    run_monthly_drift_audit glob store audit None /\
  (forall start_date end_date start end_,
     _resolve_month_range fromisoformat today start_date end_date = Some (start, end_) ->
     synthesize_weekly_arcs fromisoformat glob today store weekly_arc_engine
       start_date end_date None =
     Some (map (fun w => mkWeeklyArc (w_label w)
                  (_call_weekly_arc_engine weekly_arc_engine (w_events w)
                     (w_start w) (w_end w)))
               (_week_ranges start end_ (events_between glob store start end_)))) /\
  (cal_date today -> forall weekly_arcs,
     generate_month_narrative fromisoformat glob today store stitch None weekly_arcs =
     Some (narrative_from stitch
             (events_between glob store (month_first today) (month_last today))
             weekly_arcs)) /\
  (run_monthly_drift_audit glob store audit None = drift_from audit (query_all glob store) /\
   query_all glob store ≡ₚ all_rows store) /\
  (cal_date today -> forall start_date end_date month_arc,
     construct_month_arc fromisoformat glob round2 today store weekly_arc_engine stitch
       task_engine audit start_date end_date = Some month_arc ->
     md_events (ma_events month_arc) = [] ->
     ma_drift month_arc = drift_from audit (query_all glob store) /\
     ma_narrative month_arc =
       narrative_from stitch
         (events_between glob store (month_first today) (month_last today))
         (Some (ma_weekly_arcs month_arc))).
Proof.
  split_and!; try reflexivity.
  - intros start_date end_date start end_ Hr. unfold synthesize_weekly_arcs.
    now rewrite Hr.
  - intros Hcal weekly_arcs. now apply generate_default_narrative.
  - apply (query_all_rows glob glob_perm).
  - intros Hcal start_date end_date month_arc Hc Hempty.
    unfold construct_month_arc in Hc.
    destruct (gather_month_events fromisoformat glob today store start_date end_date)
      as [month_data|]; [|discriminate].
    destruct (synthesize_weekly_arcs _ _ _ _ _ _ _ _) as [weekly_arcs|]; [|discriminate].
    destruct (generate_month_narrative _ _ _ _ _ _ _) as [narrative|] eqn:Hn;
      [|discriminate].
    destruct (_resolve_month_range fromisoformat today start_date end_date) as [[s e]|];
      [|discriminate].
    injection Hc as <-.
    cbn [ma_events ma_drift ma_narrative ma_weekly_arcs] in *.
    rewrite Hempty in *. split; [reflexivity|].
    change (generate_month_narrative fromisoformat glob today store stitch (Some [])
              (Some weekly_arcs))
      with (generate_month_narrative fromisoformat glob today store stitch None
              (Some weekly_arcs)) in Hn.
    rewrite (generate_default_narrative _ Hcal) in Hn. now injection Hn.
Qed.

End EmptyEvents.

Lemma empty_events_requery_witness :
  (forall X : gset Z, glob_elements X ≡ₚ elements X) /\
  cal_date (mkdate 2025 6 15) /\
  generate_month_narrative strict_fromisoformat glob_elements (mkdate 2025 6 15)
    example_store (Some counting_stitcher) (Some []) None =
  Some (narrative_from (Some counting_stitcher)
          (events_between glob_elements example_store (mkdate 2025 6 1) (mkdate 2025 6 30))
          None).
Proof.
  assert (Hglob : forall X : gset Z, glob_elements X ≡ₚ elements X) by reflexivity.
  assert (Hcal : cal_date (mkdate 2025 6 15)) by (repeat split; vm_compute; discriminate).
  split; [exact Hglob|]. split; [exact Hcal|].
  destruct (empty_events_requery strict_fromisoformat glob_elements Hglob identity_round
              (mkdate 2025 6 15) example_store silent_weekly_engine
              (Some counting_stitcher) idle_task_engine (Some title_auditor))
    as (_ & Hsame & _ & _ & Hdefault & _).
  rewrite Hsame. exact (Hdefault Hcal None).
Defined.

(** C10 as worded has the narrative drawn from the entire timeline.  In
    June 2025, over January 2024, a timeline whose one event is dated
    March 2025 is audited whole, and the narrative is stitched from no
    event at all. *)
Lemma empty_month_narrative_counterexample :
  match construct_month_arc strict_fromisoformat glob_elements identity_round
          (mkdate 2025 6 15) example_store silent_weekly_engine (Some counting_stitcher)
          idle_task_engine (Some title_auditor)
          (Some (ArgStr "2024-01-01")) (Some (ArgStr "2024-01-31")) with
  | Some month_arc =>
    md_events (ma_events month_arc) = [] /\
    query_all glob_elements example_store = [example_event] /\
    issues (ma_drift month_arc) = ["Old Detail"%string] /\
    hook (ma_narrative month_arc) = "stitched-0"%string /\
    hook (narrative_from (Some counting_stitcher)
            (query_all glob_elements example_store) None) = "stitched-1"%string
  | None => False
  end.
Proof. vm_compute. repeat split; reflexivity. Qed.


(** * Further properties of the timeline store *)

Section StoreRoundTrip.

Variable fromisoformat : string -> option date.

(** X1. [add_event] followed by [load_year]: when the date of the event
    parses, the call returns the event, the shard of the year of that
    date then reads back as its former rows followed by the event, no
    other shard changes, the only file that may appear is the one of
    that year, and the directory holds one row more.  When the date does
    not parse the call raises and the directory is as before. *)
Theorem add_event_round_trip event (store : Store) :
  match fromisoformat (ev_date event) with
  | None => add_event fromisoformat event store = Raises store
  | Some d =>
    exists store',
      add_event fromisoformat event store = Returns store' event /\
      load_year (year d) store' = (store', shard_rows store (year d) ++ [event]) /\
      (forall y, y <> year d -> store' !! y = store !! y) /\
      dom store' = dom store ∪ {[year d]} /\
      all_rows store' ≡ₚ all_rows store ++ [event]
  end.
Proof.
  rewrite add_event_spec.
  destruct (fromisoformat (ev_date event)) as [d|]; [|reflexivity].
  eexists; split; [reflexivity|]. split_and!.
  - unfold load_year, _load_raw_year. now rewrite lookup_insert_eq.
  - intros y Hy. now rewrite lookup_insert_ne.
  - rewrite dom_insert_L. set_solver.
  - apply all_rows_append.
Qed.

End StoreRoundTrip.

Section ArchivedFilter.

Variable glob : gset Z -> list Z.

Lemma filter_filter_andb {A} (f g : A -> bool) (l : list A) :
  List.filter f (List.filter g l) = List.filter (fun x => g x && f x) l.
Proof.
  induction l as [|x l IH]; [reflexivity|]. simpl.
  destruct (g x); simpl; [destruct (f x)|]; now rewrite IH.
Qed.

Lemma in_range_active start_date end_date tags event :
  in_range start_date end_date tags false event =
  in_range start_date end_date tags true event && active event.
Proof.
  unfold in_range, active. simpl.
  destruct (ev_archived event); simpl; [now rewrite andb_false_r|now rewrite andb_true_r].
Qed.

(** X3. What [include_archived] changes in [get_events]: for the same
    year, bounds and tags, the default result is the result with
    [include_archived=True] with the archived events taken out, the
    remaining ones in the same order. *)
Theorem get_events_archived_filter year start_date end_date tags (store : Store) :
  snd (get_events glob year start_date end_date tags false store) =
  List.filter active (snd (get_events glob year start_date end_date tags true store)).
Proof.
  unfold get_events.
  destruct (match year with
            | Some y => load_year y store
            | None => load_years (sorted_paths (glob (dom store))) store
            end) as [store' rows].
  cbn [snd]. rewrite filter_filter_andb.
  apply filter_ext. intros event. apply in_range_active.
Qed.

End ArchivedFilter.

Section StringTotal.

Lemma str_le_total a b : str_le a b = true \/ str_le b a = true.
Proof.
  unfold str_le, String.leb. rewrite (String.compare_antisym b a).
  destruct (String.compare a b); simpl; auto.
Qed.

Lemma insert_sorted_Sorted {A} (le : A -> A -> bool) x (l : list A) :
  (forall a b, le a b = true \/ le b a = true) ->
  Sorted (fun a b => le a b = true) l ->
  Sorted (fun a b => le a b = true) (insert_sorted le x l).
Proof.
  intros Htotal. induction l as [|y l IH]; intros Hs; simpl.
  - repeat constructor.
  - destruct (le x y) eqn:Hxy.
    + constructor; [exact Hs|]. constructor. exact Hxy.
    + assert (Hyx : le y x = true) by (destruct (Htotal x y); congruence).
      inversion Hs as [|? ? Hs' Hhd]; subst. constructor; [now apply IH|].
      destruct l as [|z l]; simpl; [now constructor|].
      destruct (le x z); constructor; [exact Hyx|].
      now inversion Hhd.
Qed.

Lemma sorted_Sorted {A} (le : A -> A -> bool) (l : list A) :
  (forall a b, le a b = true \/ le b a = true) ->
  Sorted (fun a b => le a b = true) (sorted le l).
Proof.
  intros Htotal. induction l as [|x l IH]; simpl; [constructor|].
  now apply insert_sorted_Sorted.
Qed.

Lemma filter_flat_map {A B} (f : B -> bool) (g : A -> list B) (l : list A) :
  List.filter f (flat_map g l) = flat_map (fun x => List.filter f (g x)) l.
Proof.
  induction l as [|x l IH]; [reflexivity|]. simpl.
  now rewrite List.filter_app, IH.
Qed.

End StringTotal.

Section ReadOnly.

Variable glob : gset Z -> list Z.
Hypothesis glob_perm : forall X : gset Z, glob X ≡ₚ elements X.

(** X2. [get_events] reads: whatever the arguments, every shard holds the
    same rows after the call as before.  The one change it can make is
    [_load_raw_year] creating the file of a requested year that has
    none, with no rows; the result is then empty.  A query without
    [year], or for a year that has a file, leaves the directory exactly
    as it was, and asking again gives the same events. *)
Theorem get_events_read_only year start_date end_date tags include_archived
    (store : Store) :
  let result := get_events glob year start_date end_date tags include_archived store in
  (forall y, shard_rows (fst result) y = shard_rows store y) /\
  dom (fst result) = dom store ∪ (match year with Some y => {[y]} | None => ∅ end) /\
  ((forall y, year = Some y -> y ∈ dom store) -> fst result = store) /\
  (forall y, year = Some y -> y ∉ dom store ->
     fst result = <[y := []]> store /\ snd result = []) /\
  get_events glob year start_date end_date tags include_archived (fst result) = result.
Proof.
  destruct year as [y|]; cbv zeta.
  - unfold get_events, load_year, _load_raw_year.
    destruct (store !! y) as [rows|] eqn:Hy; cbn [fst snd].
    + split_and!.
      * reflexivity.
      * apply elem_of_dom_2 in Hy. set_solver.
      * reflexivity.
      * intros y' [= <-] Hnot. apply not_elem_of_dom in Hnot. congruence.
      * now rewrite Hy.
    + split_and!.
      * intros y'. unfold shard_rows. destruct (decide (y' = y)) as [->|Hne].
        -- now rewrite lookup_insert_eq, Hy.
        -- now rewrite lookup_insert_ne.
      * rewrite dom_insert_L. set_solver.
      * intros Hin. specialize (Hin y eq_refl). apply elem_of_dom in Hin.
        rewrite Hy in Hin. now destruct Hin.
      * intros y' [= <-] _. split; reflexivity.
      * now rewrite lookup_insert_eq.
  - rewrite (get_events_all glob glob_perm). cbn [fst snd]. split_and!.
    + reflexivity.
    + set_solver.
    + reflexivity.
    + intros y [=].
    + now rewrite (get_events_all glob glob_perm).
Qed.

(** X4. A query without [year] is the per-shard queries put end to end,
    the shards taken in the order of their file names: the years are
    those of the existing files, each once, sorted by [shard_name] as
    strings, and the result is the concatenation over them of what
    [get_events] gives for that year alone. *)
Theorem get_events_by_shard start_date end_date tags include_archived (store : Store) :
  let years := sorted_paths (glob (dom store)) in
  Sorted (fun a b => str_le (shard_name a) (shard_name b) = true) years /\
  years ≡ₚ elements (dom store) /\
  snd (get_events glob None start_date end_date tags include_archived store) =
  flat_map (fun y => snd (get_events glob (Some y) start_date end_date tags
                            include_archived store))
           years.
Proof.
  cbv zeta. split_and!.
  - unfold sorted_paths.
    apply (sorted_Sorted (fun a b => str_le (shard_name a) (shard_name b))).
    intros a b. apply str_le_total.
  - apply (sorted_paths_perm glob glob_perm).
  - rewrite (get_events_all glob glob_perm). cbn [snd]. unfold candidates at 1.
    rewrite filter_flat_map. apply flat_map_ext. intros y.
    now rewrite get_events_year.
Qed.

End ReadOnly.

Lemma get_events_read_only_witness :
  (forall X : gset Z, glob_elements X ≡ₚ elements X) /\
  (2024 ∉ dom example_store) /\
  get_events glob_elements (Some 2024) None None None false example_store =
    (<[2024 := []]> example_store, []).
Proof.
  assert (Hglob : forall X : gset Z, glob_elements X ≡ₚ elements X) by reflexivity.
  assert (Hnew : 2024 ∉ dom example_store)
    by (apply not_elem_of_dom; apply lookup_singleton_ne; lia).
  split; [exact Hglob|]. split; [exact Hnew|].
  destruct (get_events_read_only glob_elements Hglob (Some 2024) None None None false
              example_store) as (_ & _ & _ & Hmissing & _).
  destruct (Hmissing 2024 eq_refl Hnew) as [Hstore Hevents].
  now rewrite <- Hstore, <- Hevents, <- surjective_pairing.
Defined.

Lemma get_events_by_shard_witness :
  (forall X : gset Z, glob_elements X ≡ₚ elements X) /\
  snd (get_events glob_elements None None None None false example_store) =
  flat_map (fun y => snd (get_events glob_elements (Some y) None None None false
                            example_store))
           (sorted_paths (glob_elements (dom example_store))).
Proof.
  assert (Hglob : forall X : gset Z, glob_elements X ≡ₚ elements X) by reflexivity.
  split; [exact Hglob|].
  exact (proj2 (proj2 (get_events_by_shard glob_elements Hglob None None None false
                         example_store))).
Defined.

(** ** The order of the shards *)

Section ShardOrder.

Lemma str_of_Z_pad4 n : 1000 <= n <= 9999 -> str_of_Z n = pad4 n.
Proof.
  intros Hn.
  assert (H : forallb (fun k => String.eqb (str_of_Z (1000 + Z.of_nat k))
                                           (pad4 (1000 + Z.of_nat k)))
                      (seq 0 (Z.to_nat 9000)) = true) by (vm_compute; reflexivity).
  rewrite forallb_forall in H. specialize (H (Z.to_nat (n - 1000))).
  rewrite Z2Nat.id in H by lia. replace (1000 + (n - 1000)) with n in H by lia.
  apply String.eqb_eq, H. apply in_seq. lia.
Qed.

Lemma shard_name_le a b :
  1000 <= a <= 9999 -> 1000 <= b <= 9999 ->
  str_le (shard_name a) (shard_name b) = (a <=? b).
Proof.
  intros Ha Hb. unfold str_le, String.leb, shard_name.
  rewrite !str_of_Z_pad4 by assumption.
  rewrite compare_app by now rewrite !pad4_length.
  rewrite pad4_compare by lia. rewrite compare_refl.
  unfold Z.leb. now destruct (a ?= b).
Qed.

Lemma Sorted_impl_in {A} (R R' : A -> A -> Prop) (P : A -> Prop) (l : list A) :
  (forall a b, P a -> P b -> R a b -> R' a b) ->
  Forall P l -> Sorted R l -> Sorted R' l.
Proof.
  intros Himpl HP Hs. induction Hs as [|x l Hs IH Hhd]; [constructor|].
  inversion HP as [|? ? Hx Hl]; subst. constructor; [now apply IH|].
  destruct Hhd as [|y l Hxy]; constructor.
  inversion Hl; subst. now apply Himpl.
Qed.

Variable glob : gset Z -> list Z.
Hypothesis glob_perm : forall X : gset Z, glob X ≡ₚ elements X.

(** X5. The shards are visited in the order of their file names, which
    are compared as strings.  Between years of four digits that is the
    numeric order, so when every shard is of such a year a query without
    [year] goes through the years in ascending order. *)
Theorem shard_order_four_digits (store : Store) :
  (forall a b, 1000 <= a <= 9999 -> 1000 <= b <= 9999 ->
     str_le (shard_name a) (shard_name b) = (a <=? b)) /\
  ((forall y, y ∈ dom store -> 1000 <= y <= 9999) ->
   Sorted Z.le (sorted_paths (glob (dom store)))).
Proof.
  split; [apply shard_name_le|]. intros Hyears.
  apply (Sorted_impl_in (fun a b => str_le (shard_name a) (shard_name b) = true) Z.le
                        (fun y => 1000 <= y <= 9999)).
  - intros a b Ha Hb. rewrite shard_name_le by assumption. apply Z.leb_le.
  - apply Forall_forall. intros y Hy. apply Hyears.
    apply elem_of_elements. now rewrite <- (sorted_paths_perm glob glob_perm).
  - unfold sorted_paths.
    apply (sorted_Sorted (fun a b => str_le (shard_name a) (shard_name b))).
    intros a b. apply str_le_total.
Qed.

End ShardOrder.

(** Years with fewer digits sort by their first digit: the shard of the
    year 1000 is read before the one of the year 999. *)
Example sorted_paths_short_year : sorted_paths [999; 1000] = [1000; 999].
Proof. reflexivity. Qed.

Lemma shard_order_four_digits_witness :
  (forall X : gset Z, glob_elements X ≡ₚ elements X) /\
  (forall y, y ∈ dom split_store -> 1000 <= y <= 9999) /\
  Sorted Z.le (sorted_paths (glob_elements (dom split_store))).
Proof.
  assert (Hglob : forall X : gset Z, glob_elements X ≡ₚ elements X) by reflexivity.
  assert (Hyears : forall y, y ∈ dom split_store -> 1000 <= y <= 9999).
  { intros y Hy. unfold split_store in Hy. rewrite dom_insert_L, dom_singleton_L in Hy.
    set_solver by lia. }
  split; [exact Hglob|]. split; [exact Hyears|].
  exact (proj2 (shard_order_four_digits glob_elements Hglob split_store) Hyears).
Defined.

(** ** Archiving *)

Section ArchiveFootprint.

Variable glob : gset Z -> list Z.
Hypothesis glob_perm : forall X : gset Z, glob X ≡ₚ elements X.

Lemma in_range_unfiltered event : in_range None None [] true event = true.
Proof. reflexivity. Qed.

Lemma filter_all {A} (f : A -> bool) (l : list A) :
  (forall x, f x = true) -> List.filter f l = l.
Proof.
  intros Hf. induction l as [|x l IH]; [reflexivity|]. simpl. now rewrite Hf, IH.
Qed.

Lemma query_all_candidates (store : Store) :
  query_all glob store = candidates glob None store.
Proof.
  unfold query_all. rewrite (get_events_all glob glob_perm). cbn [snd].
  apply filter_all, in_range_unfiltered.
Qed.

Lemma map_flat_map {A B C} (f : B -> C) (g : A -> list B) (l : list A) :
  map f (flat_map g l) = flat_map (fun x => map f (g x)) l.
Proof.
  induction l as [|x l IH]; [reflexivity|]. simpl. now rewrite map_app, IH.
Qed.

Lemma map_archive_item_ids event_id rows :
  map ev_id (map (archive_item event_id) rows) = map ev_id rows.
Proof.
  rewrite map_map. apply map_ext. intros item. apply archive_item_id.
Qed.

Lemma shard_rows_archived (store : Store) y rows event_id y' :
  store !! y = Some rows ->
  map ev_id (shard_rows (<[y := map (archive_item event_id) rows]> store) y') =
  map ev_id (shard_rows store y').
Proof.
  intros Hrows. unfold shard_rows. destruct (decide (y' = y)) as [->|Hne].
  - rewrite lookup_insert_eq, Hrows. apply map_archive_item_ids.
  - now rewrite lookup_insert_ne.
Qed.

Lemma in_all_rows (store : Store) y rows item :
  store !! y = Some rows -> item ∈ rows -> item ∈ all_rows store.
Proof.
  intros Hrows Hitem. rewrite (all_rows_split store y rows Hrows).
  apply elem_of_app. now left.
Qed.

Lemma all_rows_in (store : Store) item :
  item ∈ all_rows store -> exists y rows, store !! y = Some rows /\ item ∈ rows.
Proof.
  unfold all_rows. rewrite list_elem_of_In, in_flat_map.
  intros (y & Hy & Hitem). apply list_elem_of_In in Hy, Hitem.
  apply elem_of_elements, elem_of_dom in Hy. destruct Hy as [rows Hrows].
  exists y, rows. split; [exact Hrows|]. unfold shard_rows in Hitem.
  now rewrite Hrows in Hitem.
Qed.

Lemma rest_rows_in (store : Store) y item :
  item ∈ rest_rows store y ->
  exists y' rows, y' <> y /\ store !! y' = Some rows /\ item ∈ rows.
Proof.
  unfold rest_rows. rewrite list_elem_of_In, in_flat_map.
  intros (y' & Hy & Hitem). apply list_elem_of_In in Hy, Hitem.
  apply elem_of_elements, elem_of_difference in Hy. destruct Hy as [Hy Hne].
  apply elem_of_dom in Hy. destruct Hy as [rows Hrows].
  exists y', rows. split; [set_solver|]. split; [exact Hrows|].
  unfold shard_rows in Hitem. now rewrite Hrows in Hitem.
Qed.

(** X6. What [archive_event] can touch.  It neither creates nor removes a
    shard; it returns [None] exactly when no row of any shard carries the
    id, and then the directory is as before; otherwise the rows of at
    most one shard change.  In every shard the ids stay the same, in the
    same places, so a query for everything lists the same ids in the same
    order as before the call. *)
Theorem archive_event_footprint event_id (store : Store) :
  let store' := fst (archive_event glob event_id store) in
  let result := snd (archive_event glob event_id store) in
  dom store' = dom store /\
  (result = None <->
     forall y rows, store !! y = Some rows ->
       Forall (fun item => ev_id item <> event_id) rows) /\
  (result = None -> store' = store) /\
  (exists y, forall y', y' <> y -> store' !! y' = store !! y') /\
  (forall y, map ev_id (shard_rows store' y) = map ev_id (shard_rows store y)) /\
  map ev_id (query_all glob store') = map ev_id (query_all glob store).
Proof.
  cbv zeta.
  destruct (archive_event_cases glob glob_perm event_id store)
    as [[-> Hnone]|(y & rows & e & Hrows & He & ->)]; cbn [fst snd].
  - split_and!; try reflexivity.
    + split; [intros _; exact Hnone|reflexivity].
    + exists 0. reflexivity.
  - assert (Hdom : dom (<[y := map (archive_item event_id) rows]> store) = dom store).
    { rewrite dom_insert_L. apply elem_of_dom_2 in Hrows. set_solver. }
    split_and!.
    + exact Hdom.
    + split; [discriminate|]. intros Hall. specialize (Hall y rows Hrows).
      apply archive_rows_none in Hall. congruence.
    + discriminate.
    + exists y. intros y' Hne. now rewrite lookup_insert_ne.
    + intros y'. now apply shard_rows_archived.
    + rewrite !query_all_candidates. unfold candidates. rewrite Hdom, !map_flat_map.
      apply flat_map_ext. intros y'. now apply shard_rows_archived.
Qed.

(** X7. Archiving hides an event from the default query when the rows
    that carry its id are all in one shard: after the call no event
    returned by [get_events()] has that id. *)
Theorem archive_event_hides event_id (store : Store) :
  (forall y y' rows rows' item item',
     store !! y = Some rows -> store !! y' = Some rows' ->
     item ∈ rows -> item' ∈ rows' ->
     ev_id item = event_id -> ev_id item' = event_id -> y = y') ->
  forall event,
    event ∈ query_default glob (fst (archive_event glob event_id store)) ->
    ev_id event <> event_id.
Proof.
  intros Hone event.
  rewrite (query_default_rows glob glob_perm), active_in_filter.
  destruct (archive_event_cases glob glob_perm event_id store)
    as [[-> Hnone]|(y & rows & e & Hrows & He & ->)]; cbn [fst].
  - intros [(y & rows & Hrows & Hin)%all_rows_in _].
    specialize (Hnone y rows Hrows). rewrite Forall_forall in Hnone.
    now apply Hnone.
  - intros [Hin Hactive] Hid.
    destruct (archive_rows_some _ _ _ He) as (He_in & He_id & _).
    apply list_elem_of_fmap in He_in. destruct He_in as (item0 & -> & Hitem0).
    rewrite archive_item_id in He_id.
    rewrite (proj1 (all_rows_map_shard store y rows (archive_item event_id) Hrows)) in Hin.
    apply elem_of_app in Hin. destruct Hin as [Hin|Hin].
    + apply list_elem_of_fmap in Hin. destruct Hin as (item & -> & Hitem).
      rewrite archive_item_id in Hid.
      rewrite (archive_item_hit _ _ Hid) in Hactive. discriminate.
    + apply rest_rows_in in Hin. destruct Hin as (y' & rows' & Hne & Hrows' & Hitem).
      apply Hne. exact (Hone y' y rows' rows event item0 Hrows' Hrows Hitem Hitem0 Hid He_id).
Qed.

(** X8. [archive_event] stops at the first shard that holds the id.  When
    two shards each hold an active row with the id, the call succeeds
    and the default query still returns an event with that id. *)
Theorem archive_event_one_shard event_id (store : Store) y1 y2 rows1 rows2 item1 item2 :
  y1 <> y2 ->
  store !! y1 = Some rows1 -> item1 ∈ rows1 ->
  ev_id item1 = event_id -> ev_archived item1 = false ->
  store !! y2 = Some rows2 -> item2 ∈ rows2 ->
  ev_id item2 = event_id -> ev_archived item2 = false ->
  is_Some (snd (archive_event glob event_id store)) /\
  exists event,
    event ∈ query_default glob (fst (archive_event glob event_id store)) /\
    ev_id event = event_id.
Proof.
  intros Hne Hrows1 Hitem1 Hid1 Hact1 Hrows2 Hitem2 Hid2 Hact2.
  destruct (archive_event_cases glob glob_perm event_id store)
    as [[-> Hnone]|(y & rows & e & Hrows & He & ->)]; cbn [fst snd].
  - specialize (Hnone y1 rows1 Hrows1). rewrite Forall_forall in Hnone.
    exfalso. now apply (Hnone item1).
  - split; [now eexists|].
    assert (Hstays : forall y' rows' item,
              y' <> y -> store !! y' = Some rows' -> item ∈ rows' ->
              ev_archived item = false ->
              item ∈ query_default glob (<[y := map (archive_item event_id) rows]> store)).
    { intros y' rows' item Hy' Hrows' Hitem Hact.
      rewrite (query_default_rows glob glob_perm), active_in_filter.
      split; [|exact Hact].
      apply (in_all_rows _ y' rows'); [now rewrite lookup_insert_ne|exact Hitem]. }
    destruct (decide (y1 = y)) as [Heq|Hne1].
    + exists item2. split; [|exact Hid2].
      apply (Hstays y2 rows2); [congruence|assumption..].
    + exists item1. split; [|exact Hid1].
      now apply (Hstays y1 rows1).
Qed.

End ArchiveFootprint.

Lemma archive_event_footprint_witness :
  (forall X : gset Z, glob_elements X ≡ₚ elements X) /\
  map ev_id (query_all glob_elements (fst (archive_event glob_elements "e1" split_store))) =
  map ev_id (query_all glob_elements split_store).
Proof.
  assert (Hglob : forall X : gset Z, glob_elements X ≡ₚ elements X) by reflexivity.
  split; [exact Hglob|].
  exact (proj2 (proj2 (proj2 (proj2 (proj2
           (archive_event_footprint glob_elements Hglob "e1" split_store)))))).
Defined.

Lemma archive_event_hides_witness :
  (forall X : gset Z, glob_elements X ≡ₚ elements X) /\
  (forall y y' rows rows' item item',
     example_store !! y = Some rows -> example_store !! y' = Some rows' ->
     item ∈ rows -> item' ∈ rows' ->
     ev_id item = "e1"%string -> ev_id item' = "e1"%string -> y = y') /\
  forall event,
    event ∈ query_default glob_elements (fst (archive_event glob_elements "e1" example_store)) ->
    ev_id event <> "e1"%string.
Proof.
  assert (Hglob : forall X : gset Z, glob_elements X ≡ₚ elements X) by reflexivity.
  assert (Hone : forall y y' rows rows' item item',
     example_store !! y = Some rows -> example_store !! y' = Some rows' ->
     item ∈ rows -> item' ∈ rows' ->
     ev_id item = "e1"%string -> ev_id item' = "e1"%string -> y = y').
  { intros y y' rows rows' item item' Hy Hy' _ _ _ _. unfold example_store in Hy, Hy'.
    apply lookup_singleton_Some in Hy, Hy'. destruct Hy as [<- _], Hy' as [<- _].
    reflexivity. }
  split; [exact Hglob|]. split; [exact Hone|].
  exact (archive_event_hides glob_elements Hglob "e1" example_store Hone).
Defined.

Lemma archive_event_one_shard_witness :
  (forall X : gset Z, glob_elements X ≡ₚ elements X) /\
  is_Some (snd (archive_event glob_elements "e1" split_store)) /\
  exists event,
    event ∈ query_default glob_elements (fst (archive_event glob_elements "e1" split_store)) /\
    ev_id event = "e1"%string.
Proof.
  assert (Hglob : forall X : gset Z, glob_elements X ≡ₚ elements X) by reflexivity.
  split; [exact Hglob|].
  refine (archive_event_one_shard glob_elements Hglob "e1" split_store 2024 2025
            [mkEvent "e1" "2024-12-31" "Old Detail" "note" "Wrong info" [] "user_entry" ∅ false]
            [example_event] _ example_event _ _ _ _ _ _ _ _ _).
  - lia.
  - reflexivity.
  - apply list_elem_of_here.
  - reflexivity.
  - reflexivity.
  - reflexivity.
  - apply list_elem_of_here.
  - reflexivity.
  - reflexivity.
Defined.

(** * Further properties of the monthly arc engine *)

(** ** The month range *)

Section MonthRangeCases.

Variable fromisoformat : string -> option date.
Variable today : date.

Lemma resolve_month_range_given start_date end_date :
  start_date <> None \/ end_date <> None ->
  _resolve_month_range fromisoformat today start_date end_date =
  match normalize_if_given fromisoformat today start_date,
        normalize_if_given fromisoformat today end_date with
  | None, _ => None
  | Some _, None => None
  | Some (Some s), Some (Some e) => if date_ltb e s then Some (e, s) else Some (s, e)
  | Some (Some s), Some None =>
    if date_ltb (add_days s 30) s then Some (add_days s 30, s) else Some (s, add_days s 30)
  | Some None, Some (Some e) =>
    if date_ltb e (add_days e (-30)) then Some (e, add_days e (-30))
    else Some (add_days e (-30), e)
  | Some None, Some None => Some (add_days today (-30), today)
  end.
Proof.
  intros Hgiven. unfold _resolve_month_range.
  set (ns := normalize_if_given fromisoformat today start_date).
  set (ne := normalize_if_given fromisoformat today end_date).
  clearbody ns ne.
  destruct start_date as [a|], end_date as [b|];
    try (destruct Hgiven; congruence);
    destruct ns as [[s|]|], ne as [[e|]|]; cbv beta iota zeta; reflexivity.
Qed.



Lemma normalize_if_given_cal value d :
  (forall s d, fromisoformat s = Some d -> cal_date d) ->
  arg_cal value ->
  normalize_if_given fromisoformat today value = Some (Some d) -> cal_date d.
Proof.
  intros Hparse Hcal. unfold normalize_if_given.
  destruct value as [[d'|d' t|s]|]; simpl in *.
  - now intros [= <-].
  - now intros [= <-].
  - destruct (truthy_str s); [|discriminate].
    destruct (fromisoformat s) as [d'|] eqn:Hf; [|discriminate].
    intros [= <-]. now apply (Hparse s).
  - discriminate.
Qed.

Lemma date_ltb_order a b :
  cal_date a -> cal_date b ->
  forall s e, (if date_ltb b a then Some (b, a) else Some (a, b)) = Some (s, e) ->
  cal_date s /\ cal_date e /\ date_le s e.
Proof.
  intros Ha Hb s e. destruct (date_ltb b a) eqn:Hlt; intros [= <- <-].
  - split_and!; [assumption..|]. apply (date_le_rank _ _ Hb Ha).
    apply (date_lt_rank _ _ Hb Ha) in Hlt. lia.
  - split_and!; [assumption..|]. apply (date_le_rank _ _ Ha Hb).
    destruct (Z.le_gt_cases (rank a) (rank b)) as [Hle|Hgt]; [exact Hle|].
    apply (date_lt_rank _ _ Hb Ha) in Hgt. unfold date_lt in Hgt. congruence.
Qed.

(** X9. [_resolve_month_range] never returns a reversed range.  Whenever
    it returns, for today a date of the calendar and bounds that are
    dates of the calendar or strings the parser reads as such, the first
    date is not after the second. *)
Theorem resolve_month_range_ordered start_date end_date start end_ :
  cal_date today ->
  (forall s d, fromisoformat s = Some d -> cal_date d) ->
  arg_cal start_date -> arg_cal end_date ->
  _resolve_month_range fromisoformat today start_date end_date = Some (start, end_) ->
  cal_date start /\ cal_date end_ /\ date_le start end_.
Proof.
  intros Htoday Hparse Hs He.
  destruct (decide (start_date = None /\ end_date = None)) as [[-> ->]|Hgiven].
  - rewrite resolve_month_range_default by assumption. intros [= <- <-].
    destruct Htoday as [Hm Hd].
    pose proof (days_in_month_bounds (year today) (month today)) as Hdim.
    assert (H1 : cal_date (mkdate (year today) (month today) 1))
      by (unfold cal_date; simpl; lia).
    assert (H2 : cal_date (mkdate (year today) (month today)
                             (days_in_month (year today) (month today))))
      by (unfold cal_date; simpl; lia).
    split_and!; [assumption..|]. apply (date_le_rank _ _ H1 H2). unfold rank. simpl. lia.
  - rewrite resolve_month_range_given
      by (destruct start_date, end_date; [left|left|right|]; (congruence || tauto)).
    destruct (normalize_if_given fromisoformat today start_date) as [[s|]|] eqn:Hns;
      [| |discriminate];
      (destruct (normalize_if_given fromisoformat today end_date) as [[e|]|] eqn:Hne;
       [| |discriminate]).
    + apply date_ltb_order;
        [exact (normalize_if_given_cal start_date s Hparse Hs Hns)
        |exact (normalize_if_given_cal end_date e Hparse He Hne)].
    + assert (Hcs : cal_date s) by exact (normalize_if_given_cal start_date s Hparse Hs Hns).
      pose proof (add_days_cal s 30 ltac:(lia) Hcs) as Hc.
      generalize dependent (add_days s 30). intros d' Hc. now apply date_ltb_order.
    + assert (Hce : cal_date e) by exact (normalize_if_given_cal end_date e Hparse He Hne).
      destruct (add_days_neg e (-30) ltac:(lia) Hce) as [Hc _].
      generalize dependent (add_days e (-30)). intros d' Hc. intros Hr.
      apply (date_ltb_order d' e Hc Hce). exact Hr.
    + destruct (add_days_neg today (-30) ltac:(lia) Htoday) as [Hc Hr].
      generalize dependent (add_days today (-30)). intros d' Hc Hr [= <- <-].
      split_and!; [assumption..|]. now apply (date_le_rank _ _ Hc Htoday).
Qed.


End MonthRangeCases.

Lemma strict_fromisoformat_cal s d : strict_fromisoformat s = Some d -> cal_date d.
Proof.
  unfold strict_fromisoformat.
  destruct (negb _); [discriminate|]. destruct (negb _); [discriminate|].
  destruct (digits_val 0 (substring 0 4 s)) as [y|]; [|discriminate].
  destruct (digits_val 0 (substring 5 2 s)) as [m|]; [|discriminate].
  destruct (digits_val 0 (substring 8 2 s)) as [dd|]; [|discriminate].
  destruct (_ && _) eqn:Hok; [|discriminate]. intros [= <-].
  repeat (apply andb_prop in Hok; destruct Hok as [Hok ?]).
  unfold cal_date. simpl. lia.
Qed.

Lemma resolve_month_range_ordered_witness :
  let today := mkdate 2024 12 15 in
  cal_date today /\
  (forall s d, strict_fromisoformat s = Some d -> cal_date d) /\
  arg_cal (Some (ArgStr "2024-05-31")) /\
  arg_cal (Some (ArgDateTime (mkdate 2024 5 1) 3600)) /\
  _resolve_month_range strict_fromisoformat today
    (Some (ArgStr "2024-05-31")) (Some (ArgDateTime (mkdate 2024 5 1) 3600))
    = Some (mkdate 2024 5 1, mkdate 2024 5 31) /\
  date_le (mkdate 2024 5 1) (mkdate 2024 5 31).
Proof.
  intros today.
  assert (Htoday : cal_date today) by (repeat split; vm_compute; discriminate).
  assert (Hend : arg_cal (Some (ArgDateTime (mkdate 2024 5 1) 3600)))
    by (repeat split; vm_compute; discriminate).
  assert (Hrange : _resolve_month_range strict_fromisoformat today
            (Some (ArgStr "2024-05-31")) (Some (ArgDateTime (mkdate 2024 5 1) 3600))
            = Some (mkdate 2024 5 1, mkdate 2024 5 31)) by reflexivity.
  split; [exact Htoday|]. split; [exact strict_fromisoformat_cal|].
  split; [exact I|]. split; [exact Hend|]. split; [exact Hrange|].
  exact (proj2 (proj2 (resolve_month_range_ordered strict_fromisoformat today
                         (Some (ArgStr "2024-05-31"))
                         (Some (ArgDateTime (mkdate 2024 5 1) 3600))
                         (mkdate 2024 5 1) (mkdate 2024 5 31)
                         Htoday strict_fromisoformat_cal I Hend Hrange))).
Defined.


(** ** The number of week windows *)

Section WeekCount.












End WeekCount.


Section DefaultWindows.

Variable fromisoformat : string -> option date.
Variable glob : gset Z -> list Z.
Variable today : date.
Variable store : Store.
Variable weekly_arc_engine : WeeklyArcEngine.




End DefaultWindows.


(** ** The labels of the week windows *)

Section WeekLabels.

Lemma string_app_assoc (a b c : string) : ((a ++ b) ++ c = a ++ (b ++ c))%string.
Proof.
  induction a as [|x a IH]; [reflexivity|].
  change (String x ((a ++ b) ++ c) = String x (a ++ (b ++ c)))%string. now rewrite IH.
Qed.

Lemma string_app_length (a b : string) :
  String.length (a ++ b) = (String.length a + String.length b)%nat.
Proof.
  induction a as [|x a IH]; [reflexivity|].
  change (S (String.length (a ++ b)) = S (String.length a + String.length b)).
  now rewrite IH.
Qed.

Lemma app_suffix_inj (a a' b b' : string) :
  String.length b = String.length b' -> (a ++ b)%string = (a' ++ b')%string -> b = b'.
Proof.
  revert a'. induction a as [|c a IH]; intros [|c' a'] Hlen Heq.
  - exact Heq.
  - change (b = String c' (a' ++ b')%string) in Heq.
    apply (f_equal String.length) in Heq. simpl in Heq.
    rewrite string_app_length in Heq. lia.
  - change (String c (a ++ b)%string = b') in Heq.
    apply (f_equal String.length) in Heq. simpl in Heq.
    rewrite string_app_length in Heq. lia.
  - change (String c (a ++ b)%string = String c' (a' ++ b')%string) in Heq.
    injection Heq as _ Heq. now apply (IH a').
Qed.

Lemma app_prefix_inj (a a' b b' : string) :
  String.length a = String.length a' -> (a ++ b)%string = (a' ++ b')%string -> a = a'.
Proof.
  revert a'. induction a as [|c a IH]; intros [|c' a'] Hlen Heq; simpl in Hlen;
    try discriminate; [reflexivity|].
  change (String c (a ++ b)%string = String c' (a' ++ b')%string) in Heq.
  injection Heq as -> Heq. f_equal. apply (IH a'); [lia|exact Heq].
Qed.

Lemma isoformat_length d : String.length (isoformat d) = 10%nat.
Proof.
  unfold isoformat. rewrite !string_app_length, pad4_length, !pad2_length. reflexivity.
Qed.

Lemma isoformat_inj a b : valid_date a -> valid_date b -> isoformat a = isoformat b -> a = b.
Proof.
  intros Ha Hb Heq. pose proof (isoformat_compare a b Ha Hb) as Hcmp.
  rewrite Heq, compare_refl in Hcmp.
  rewrite (date_compare_rank a b (valid_cal _ Ha) (valid_cal _ Hb)) in Hcmp.
  symmetry in Hcmp. apply Z.compare_eq in Hcmp.
  now apply rank_inj; [apply valid_cal..|].
Qed.

Lemma week_label_split i s e :
  week_label i s e =
  (("Week " ++ str_of_Z i ++ " (") ++ (isoformat s ++ " to " ++ isoformat e ++ ")"))%string.
Proof. unfold week_label. now rewrite !string_app_assoc. Qed.

Lemma week_label_start i s e i' s' e' :
  week_label i s e = week_label i' s' e' -> isoformat s = isoformat s'.
Proof.
  rewrite !week_label_split. intros Heq.
  apply app_suffix_inj in Heq.
  - apply app_prefix_inj in Heq; [exact Heq|]. now rewrite !isoformat_length.
  - rewrite !string_app_length, !isoformat_length. reflexivity.
Qed.

(** X13. The labels of the windows of one range are pairwise different,
    so the dictionary [week_splits] of [gather_month_events], keyed by
    label, has one entry for each window. *)
Theorem week_labels_distinct start end_ events :
  valid_date start -> valid_date end_ ->
  NoDup (map w_label (_week_ranges start end_ events)).
Proof.
  intros Hstart Hend.
  pose proof (valid_cal _ Hstart) as Hcs. pose proof (valid_cal _ Hend) as Hce.
  destruct (Z.le_gt_cases (rank start) (rank end_)) as [Hle|Hgt].
  - assert (Hchain : week_chain end_ events 1 start (_week_ranges start end_ events))
      by (apply week_ranges_chain; [assumption..|now apply date_le_rank]).
    set (ws := _week_ranges start end_ events) in *. clearbody ws.
    assert (Hstarts : forall (i : nat) w, ws !! i = Some w ->
              valid_date (w_start w) /\ rank (w_start w) <= rank (w_end w) /\
              w_label w = week_label (1 + Z.of_nat i) (w_start w) (w_end w)).
    { intros i w Hi.
      destruct (chain_lookup end_ events 1 start ws Hchain i w Hi)
        as (Hw & Hws & Hwe & Hr1 & Hr2 & _).
      split_and!.
      - apply (valid_between start end_); [assumption..|lia].
      - lia.
      - rewrite Hw at 1. reflexivity. }
    assert (Hneq : forall (i j : nat) w w', (i < j)%nat ->
              ws !! i = Some w -> ws !! j = Some w' -> w_label w <> w_label w').
    { intros i j w w' Hij Hi Hj Hlabel.
      destruct (Hstarts i w Hi) as (Hv & Hr & Hl).
      destruct (Hstarts j w' Hj) as (Hv' & _ & Hl').
      rewrite Hl, Hl' in Hlabel. apply week_label_start in Hlabel.
      apply (isoformat_inj _ _ Hv Hv') in Hlabel.
      pose proof (chain_apart end_ events 1 start ws Hchain i j w w' Hij Hi Hj) as Hapart.
      rewrite Hlabel in Hr. lia. }
    apply NoDup_alt. intros i j label Hi Hj.
    rewrite list_lookup_fmap in Hi, Hj.
    destruct (ws !! i) as [w|] eqn:Ei; [|discriminate].
    destruct (ws !! j) as [w'|] eqn:Ej; [|discriminate].
    injection Hi as Hi. injection Hj as Hj.
    destruct (Nat.lt_trichotomy i j) as [Hlt|[Heq|Hgt]]; [|exact Heq|].
    + exfalso. apply (Hneq i j w w' Hlt Ei Ej). congruence.
    + exfalso. apply (Hneq j i w' w Hgt Ej Ei). congruence.
  - unfold _week_ranges. rewrite week_loop_past by (assumption || lia). constructor.
Qed.

End WeekLabels.

Lemma week_labels_distinct_witness :
  valid_date (mkdate 2024 1 1) /\ valid_date (mkdate 2024 1 31) /\
  NoDup (map w_label (_week_ranges (mkdate 2024 1 1) (mkdate 2024 1 31) test_events)).
Proof.
  assert (H1 : valid_date (mkdate 2024 1 1)) by (repeat split; vm_compute; discriminate).
  assert (H2 : valid_date (mkdate 2024 1 31)) by (repeat split; vm_compute; discriminate).
  split; [exact H1|]. split; [exact H2|].
  exact (week_labels_distinct (mkdate 2024 1 1) (mkdate 2024 1 31) test_events H1 H2).
Defined.

(** ** The statistics of a month *)

Section Tallies.

Lemma dict_get_incr key key' (d : list (string * Z)) :
  dict_get key' (dict_incr key d) =
  if String.eqb key key' then Some (default 0 (dict_get key d) + 1)
  else dict_get key' d.
Proof.
  induction d as [|[k v] d IH]; simpl.
  - destruct (String.eqb key key'); reflexivity.
  - destruct (String.eqb_spec k key) as [->|Hk]; simpl.
    + destruct (String.eqb_spec key key'); reflexivity.
    + rewrite IH. destruct (String.eqb_spec key key') as [<-|Hkk'].
      * destruct (String.eqb_spec k key); [contradiction|reflexivity].
      * reflexivity.
Qed.

Lemma dict_incr_keys key (d : list (string * Z)) :
  map fst (dict_incr key d) =
  match dict_get key d with
  | Some _ => map fst d
  | None => map fst d ++ [key]
  end.
Proof.
  induction d as [|[k v] d IH]; simpl; [reflexivity|].
  destruct (String.eqb_spec k key) as [->|Hk]; simpl; [reflexivity|].
  rewrite IH. now destruct (dict_get key d).
Qed.

Lemma dict_get_absent {B} key (d : list (string * B)) :
  dict_get key d = None <-> key ∉ map fst d.
Proof.
  induction d as [|[k v] d IH]; simpl.
  - split; [intros _ H; inversion H|reflexivity].
  - rewrite not_elem_of_cons, <- IH.
    destruct (String.eqb_spec k key); split; try congruence; intuition congruence.
Qed.

Lemma dict_incr_nodup key (d : list (string * Z)) :
  NoDup (map fst d) -> NoDup (map fst (dict_incr key d)).
Proof.
  intros Hd. rewrite dict_incr_keys.
  destruct (dict_get key d) eqn:E; [assumption|].
  apply NoDup_app. split; [assumption|]. split.
  - intros k Hk Hk'. apply list_elem_of_singleton in Hk'. subst k.
    exact (proj1 (dict_get_absent key d) E Hk).
  - apply NoDup_singleton.
Qed.

Lemma dict_incr_total key (d : list (string * Z)) :
  dict_total (dict_incr key d) = dict_total d + 1.
Proof.
  unfold dict_total. induction d as [|[k v] d IH]; simpl; [reflexivity|].
  destruct (String.eqb k key); simpl; lia.
Qed.

Lemma tally_from keys : forall (d : list (string * Z)) key,
  dict_get key (fold_left (fun d k => dict_incr k d) keys d) =
  match dict_get key d with
  | Some v => Some (v + Z.of_nat (count_occ string_dec keys key))
  | None => tally_of key keys
  end.
Proof.
  unfold tally_of. induction keys as [|k keys IH]; intros d key; cbn [fold_left count_occ].
  - destruct (dict_get key d); [f_equal; lia|reflexivity].
  - rewrite IH, dict_get_incr.
    destruct (string_dec k key) as [->|Hne].
    + rewrite String.eqb_refl. cbn [Nat.eqb].
      destruct (dict_get key d); cbn [from_option id]; f_equal; lia.
    + destruct (String.eqb_spec k key); [contradiction|reflexivity].
Qed.

Lemma tally_nodup keys : forall (d : list (string * Z)),
  NoDup (map fst d) -> NoDup (map fst (fold_left (fun d k => dict_incr k d) keys d)).
Proof.
  induction keys as [|k keys IH]; intros d Hd; [exact Hd|].
  cbn [fold_left]. apply IH. now apply dict_incr_nodup.
Qed.

Lemma tally_total keys : forall (d : list (string * Z)),
  dict_total (fold_left (fun d k => dict_incr k d) keys d) =
  dict_total d + Z.of_nat (length keys).
Proof.
  induction keys as [|k keys IH]; intros d; cbn [fold_left length]; [lia|].
  rewrite IH, dict_incr_total. lia.
Qed.

Lemma fold_left_map {A B C} (f : B -> A -> B) (g : C -> A) (l : list C) (b : B) :
  fold_left (fun acc x => f acc (g x)) l b = fold_left f (map g l) b.
Proof. revert b. induction l as [|x l IH]; intros b; [reflexivity|]. simpl. apply IH. Qed.

Variable fromisoformat : string -> option date.
Variable glob : gset Z -> list Z.
Variable today : date.
Variable store : Store.

(** X14. The statistics [gather_month_events] returns count its own
    events.  [count] is their number; [categories] holds under each key
    the number of events of that category, an event without type
    counting as "uncategorized"; [sentiment_summary] does the same for
    the sentiment, the tone, or "neutral"; [tags] holds under each tag
    the number of times the events carry it.  A key that counts nothing
    is absent, no key appears twice, and the categories as well as the
    sentiments add up to [count]. *)
Theorem gather_month_events_tallies start_date end_date month_data :
  gather_month_events fromisoformat glob today store start_date end_date = Some month_data ->
  let events := md_events month_data in
  let stats := md_stats month_data in
  st_count stats = length events /\
  (forall key, dict_get key (st_categories stats) = tally_of key (map category_of events)) /\
  (forall key, dict_get key (st_sentiment_summary stats) =
               tally_of key (map sentiment_of events)) /\
  (forall key, dict_get key (st_tags stats) = tally_of key (tags_seen events)) /\
  NoDup (map fst (st_categories stats)) /\
  NoDup (map fst (st_sentiment_summary stats)) /\
  NoDup (map fst (st_tags stats)) /\
  dict_total (st_categories stats) = Z.of_nat (st_count stats) /\
  dict_total (st_sentiment_summary stats) = Z.of_nat (st_count stats) /\
  dict_total (st_tags stats) = Z.of_nat (length (tags_seen events)).
Proof.
  unfold gather_month_events.
  destruct (_resolve_month_range fromisoformat today start_date end_date)
    as [[start end_]|]; [|discriminate].
  intros [= <-]. cbv zeta. cbn [md_events md_stats st_count st_categories
    st_sentiment_summary st_tags].
  set (events := events_between glob store start end_). clearbody events.
  rewrite (fold_left_map (fun d k => dict_incr k d) category_of).
  rewrite (fold_left_map (fun d k => dict_incr k d) sentiment_of).
  unfold count_tags. rewrite count_tags_from.
  split_and!.
  - reflexivity.
  - intros key. now rewrite tally_from.
  - intros key. now rewrite tally_from.
  - intros key. now rewrite tally_from.
  - apply tally_nodup. constructor.
  - apply tally_nodup. constructor.
  - apply tally_nodup. constructor.
  - rewrite tally_total, length_map. reflexivity.
  - rewrite tally_total, length_map. reflexivity.
  - rewrite tally_total. reflexivity.
Qed.

End Tallies.

Lemma gather_month_events_tallies_witness :
  exists month_data,
    gather_month_events strict_fromisoformat glob_elements (mkdate 2025 3 15) example_store
      None None = Some month_data /\
    st_count (md_stats month_data) = 1%nat /\
    dict_get "note" (st_categories (md_stats month_data)) = Some 1 /\
    dict_get "neutral" (st_sentiment_summary (md_stats month_data)) = Some 1 /\
    dict_get "bjj" (st_tags (md_stats month_data)) = Some 1.
Proof.
  eexists. split; [reflexivity|].
  destruct (gather_month_events_tallies strict_fromisoformat glob_elements (mkdate 2025 3 15)
              example_store None None _ eq_refl) as (Hcount & Hcat & Hsent & Htags & _).
  split; [exact Hcount|]. split; [exact (Hcat "note"%string)|].
  split; [exact (Hsent "neutral"%string)|exact (Htags "bjj"%string)].
Defined.

(** ** Events and week windows *)

Section WeekCounts.

Lemma list_sum_map_cons {A} (f : A -> nat) x (l : list A) :
  list_sum (map f (x :: l)) = (f x + list_sum (map f l))%nat.
Proof. reflexivity. Qed.

Lemma indicator_sum_zero {A} (ps : list (A -> bool)) (x : A) :
  (forall p, p ∈ ps -> p x = false) ->
  list_sum (map (fun p : A -> bool => if p x then 1 else 0)%nat ps) = 0%nat.
Proof.
  induction ps as [|p ps IH]; intros Hnone; [reflexivity|].
  rewrite list_sum_map_cons, (Hnone p) by apply list_elem_of_here.
  rewrite IH; [reflexivity|]. intros q Hq. apply Hnone. now apply list_elem_of_further.
Qed.

Lemma indicator_sum_le_one {A} (ps : list (A -> bool)) (x : A) :
  (forall (i j : nat) p q, (i < j)%nat -> ps !! i = Some p -> ps !! j = Some q ->
     p x = true -> q x = true -> False) ->
  (list_sum (map (fun p : A -> bool => if p x then 1 else 0)%nat ps) <= 1)%nat /\
  ((exists p, p ∈ ps /\ p x = true) ->
   list_sum (map (fun p : A -> bool => if p x then 1 else 0)%nat ps) = 1%nat).
Proof.
  induction ps as [|p ps IH]; intros Hdisj.
  - split; [simpl; lia|]. intros (p & Hp & _). inversion Hp.
  - assert (Hrest : forall (i j : nat) p' q, (i < j)%nat ->
              ps !! i = Some p' -> ps !! j = Some q -> p' x = true -> q x = true -> False).
    { intros i j p' q Hij Hi Hj. apply (Hdisj (S i) (S j)); [lia|exact Hi|exact Hj]. }
    destruct (IH Hrest) as [IHle IHeq]. rewrite list_sum_map_cons.
    destruct (p x) eqn:Hpx.
    + rewrite indicator_sum_zero; [split; [lia|reflexivity]|].
      intros q Hq. apply list_elem_of_lookup in Hq. destruct Hq as [j Hj].
      destruct (q x) eqn:Hqx; [|reflexivity]. exfalso.
      apply (Hdisj 0%nat (S j) p q); [lia|reflexivity|exact Hj|exact Hpx|exact Hqx].
    + split; [lia|]. intros (q & Hq & Hqx). apply elem_of_cons in Hq.
      destruct Hq as [->|Hq]; [congruence|].
      rewrite IHeq; [reflexivity|]. now exists q.
Qed.

Lemma list_sum_map_add {A} (f g : A -> nat) (l : list A) :
  list_sum (map (fun x => f x + g x)%nat l) = (list_sum (map f l) + list_sum (map g l))%nat.
Proof. induction l as [|x l IH]; simpl; lia. Qed.

Lemma filter_length_cons {A} (p : A -> bool) x (l : list A) :
  length (List.filter p (x :: l)) =
  ((if p x then 1 else 0)%nat + length (List.filter p l))%nat.
Proof. simpl. now destruct (p x). Qed.

Lemma disjoint_filters_sum {A} (ps : list (A -> bool)) (l : list A) :
  (forall (i j : nat) p q x, (i < j)%nat -> ps !! i = Some p -> ps !! j = Some q ->
     p x = true -> q x = true -> False) ->
  (list_sum (map (fun p => length (List.filter p l)) ps) <= length l)%nat /\
  ((forall x, x ∈ l -> exists p, p ∈ ps /\ p x = true) ->
   list_sum (map (fun p => length (List.filter p l)) ps) = length l).
Proof.
  intros Hdisj. induction l as [|x l [IHle IHeq]].
  - assert (Hzero : list_sum (map (fun p : A -> bool => length (List.filter p [])) ps) = 0%nat)
      by (clear Hdisj; induction ps as [|p ps IHps]; simpl; [reflexivity|exact IHps]).
    rewrite Hzero. split; [simpl; lia|reflexivity].
  - rewrite (map_ext _ _ (fun p => filter_length_cons p x l)), list_sum_map_add.
    destruct (indicator_sum_le_one ps x) as [Hle Heq].
    { intros i j p q Hij Hi Hj. now apply (Hdisj i j p q x). }
    cbn [length]. split; [lia|]. intros Hcover.
    rewrite Heq by (apply Hcover; apply list_elem_of_here).
    rewrite IHeq; [reflexivity|]. intros y Hy. apply Hcover. now apply list_elem_of_further.
Qed.

(** X15. No event is counted in two weeks.  For a range between valid
    dates the events of the windows of [_week_ranges], added up, are at
    most the events given; they are all of them when every event is
    dated by the ISO form of a valid date within the range. *)
Theorem week_events_sum start end_ events :
  valid_date start -> valid_date end_ ->
  let weeks := _week_ranges start end_ events in
  (list_sum (map (fun w => length (w_events w)) weeks) <= length events)%nat /\
  ((forall event, event ∈ events ->
      exists d, valid_date d /\ ev_date event = isoformat d /\
                date_le start d /\ date_le d end_) ->
   list_sum (map (fun w => length (w_events w)) weeks) = length events).
Proof.
  intros Hstart Hend. cbv zeta.
  pose proof (valid_cal _ Hstart) as Hcs. pose proof (valid_cal _ Hend) as Hce.
  destruct (Z.le_gt_cases (rank start) (rank end_)) as [Hle|Hgt].
  - assert (Hchain : week_chain end_ events 1 start (_week_ranges start end_ events))
      by (apply week_ranges_chain; [assumption..|now apply date_le_rank]).
    set (ws := _week_ranges start end_ events) in *. clearbody ws.
    set (ps := map (fun w => in_week (w_start w) (w_end w)) ws).
    assert (Hmap : map (fun w => length (w_events w)) ws =
                   map (fun p => length (List.filter p events)) ps).
    { unfold ps. rewrite map_map. apply map_ext_in. intros w Hw.
      apply list_elem_of_In, list_elem_of_lookup in Hw. destruct Hw as [i Hi].
      destruct (chain_lookup end_ events 1 start ws Hchain i w Hi) as (Hw & _).
      rewrite Hw at 1. reflexivity. }
    rewrite Hmap.
    assert (Hvalid : forall (i : nat) w, ws !! i = Some w ->
              valid_date (w_start w) /\ valid_date (w_end w)).
    { intros i w Hi.
      destruct (chain_lookup end_ events 1 start ws Hchain i w Hi)
        as (_ & Hws & Hwe & Hr1 & Hr2 & _).
      split; apply (valid_between start end_); (assumption || lia). }
    destruct (disjoint_filters_sum ps events) as [Hsum Heq].
    { intros i j p q event Hij Hi Hj Hp Hq. unfold ps in Hi, Hj.
      rewrite list_lookup_fmap in Hi, Hj.
      destruct (ws !! i) as [w|] eqn:Ei; [|discriminate].
      destruct (ws !! j) as [w'|] eqn:Ej; [|discriminate].
      injection Hi as <-. injection Hj as <-.
      destruct (Hvalid i w Ei) as [_ Hve]. destruct (Hvalid j w' Ej) as [Hvs _].
      pose proof (chain_apart end_ events 1 start ws Hchain i j w w' Hij Ei Ej) as Hapart.
      exact (in_week_apart _ _ _ _ event Hve Hvs Hapart Hp Hq). }
    split; [exact Hsum|]. intros Hdated. apply Heq. intros event Hevent.
    destruct (Hdated event Hevent) as (d & Hd & Hdate & Hsd & Hde).
    pose proof (valid_cal _ Hd) as Hcd.
    apply (date_le_rank _ _ Hcs Hcd) in Hsd. apply (date_le_rank _ _ Hcd Hce) in Hde.
    destruct (chain_cover end_ events 1 start ws Hchain d Hcd ltac:(lia))
      as (w & Hw & Hr1 & Hr2).
    exists (in_week (w_start w) (w_end w)). split.
    + exact (list_elem_of_fmap_2 (fun w => in_week (w_start w) (w_end w)) _ _ Hw).
    + apply list_elem_of_lookup in Hw. destruct Hw as [i Hi].
      destruct (Hvalid i w Hi) as [Hvs Hve].
      unfold in_week. rewrite Hdate, !isoformat_le by assumption.
      apply andb_true_intro. split.
      * apply (date_le_rank _ _ (valid_cal _ Hvs) Hcd). exact Hr1.
      * apply (date_le_rank _ _ Hcd (valid_cal _ Hve)). exact Hr2.
  - unfold _week_ranges. rewrite week_loop_past by (assumption || lia).
    split; [simpl; lia|]. intros Hdated. destruct events as [|event events]; [reflexivity|].
    destruct (Hdated event ltac:(left)) as (d & Hd & _ & Hsd & Hde).
    pose proof (valid_cal _ Hd) as Hcd.
    apply (date_le_rank _ _ Hcs Hcd) in Hsd. apply (date_le_rank _ _ Hcd Hce) in Hde. lia.
Qed.

End WeekCounts.

Lemma week_events_sum_witness :
  valid_date (mkdate 2024 1 1) /\ valid_date (mkdate 2024 1 31) /\
  (list_sum (map (fun w => length (w_events w))
               (_week_ranges (mkdate 2024 1 1) (mkdate 2024 1 31) test_events))
   <= length test_events)%nat.
Proof.
  assert (H1 : valid_date (mkdate 2024 1 1)) by (repeat split; vm_compute; discriminate).
  assert (H2 : valid_date (mkdate 2024 1 31)) by (repeat split; vm_compute; discriminate).
  split; [exact H1|]. split; [exact H2|].
  exact (proj1 (week_events_sum (mkdate 2024 1 1) (mkdate 2024 1 31) test_events H1 H2)).
Defined.

(** ** Dates that carry a time *)

Section Timestamps.

Lemma string_app_nil_r (s : string) : (s ++ "")%string = s.
Proof.
  induction s as [|c s IH]; [reflexivity|].
  change (String c (s ++ "")%string = String c s). now rewrite IH.
Qed.

Lemma compare_nonempty_nil t : t <> EmptyString -> String.compare t "" = Gt.
Proof. destruct t; [congruence|reflexivity]. Qed.

Lemma compare_nil_nonempty t : t <> EmptyString -> String.compare "" t = Lt.
Proof. destruct t; [congruence|reflexivity]. Qed.

Lemma compare_extended_l a b t :
  String.length a = String.length b -> t <> EmptyString ->
  String.compare (a ++ t) b =
  match String.compare a b with Eq => Gt | c => c end.
Proof.
  intros Hlen Ht. rewrite <- (string_app_nil_r b) at 1.
  rewrite compare_app by exact Hlen. now rewrite compare_nonempty_nil.
Qed.

Lemma compare_extended_r a b t :
  String.length a = String.length b -> t <> EmptyString ->
  String.compare a (b ++ t) =
  match String.compare a b with Eq => Lt | c => c end.
Proof.
  intros Hlen Ht. rewrite <- (string_app_nil_r a) at 1.
  rewrite compare_app by exact Hlen. now rewrite compare_nil_nonempty.
Qed.

Lemma str_lt_extend s t : t <> EmptyString -> str_lt s (s ++ t) = true.
Proof.
  intros Ht. unfold str_lt, String.ltb.
  rewrite compare_extended_r by (reflexivity || exact Ht). now rewrite compare_refl.
Qed.

Variable glob : gset Z -> list Z.
Hypothesis glob_perm : forall X : gset Z, glob X ≡ₚ elements X.

Lemma get_events_filter year start_date end_date tags include_archived (store : Store) :
  snd (get_events glob year start_date end_date tags include_archived store) =
  List.filter (in_range start_date end_date
                 (match tags with Some (t :: ts) => t :: ts | _ => [] end)
                 include_archived)
              (candidates glob year store).
Proof.
  destruct year as [y|]; [apply get_events_year|].
  now rewrite (get_events_all glob glob_perm).
Qed.

(** X16. The bounds of [get_events] compare strings.  A stored event
    whose date is a bound followed by more characters, such as a
    timestamp on the day the bound names, is returned when the bound is
    the start date and is not returned when the bound is the end date. *)
Theorem get_events_day_bound year bound rest event (store : Store) :
  bound <> EmptyString -> rest <> EmptyString ->
  event ∈ candidates glob year store ->
  ev_date event = (bound ++ rest)%string ->
  event ∈ snd (get_events glob year (Some bound) None None true store) /\
  event ∉ snd (get_events glob year None (Some bound) None true store).
Proof.
  intros Hbound Hrest Hin Hdate. rewrite !get_events_filter.
  rewrite !list_elem_of_In, !filter_In, <- !list_elem_of_In.
  apply truthy_str_spec in Hbound.
  pose proof (str_lt_extend bound rest Hrest) as Hlt.
  assert (Hge : str_lt (bound ++ rest) bound = false)
    by (apply str_lt_false; unfold str_le, str_lt, String.leb, String.ltb in *;
        now destruct (String.compare bound (bound ++ rest))).
  unfold in_range. rewrite Hdate, Hbound, Hlt, Hge. cbn. split; [tauto|]. intros [_ [=]].
Qed.

(** X17. A window of [_week_ranges] compares the date strings of the
    events with the ISO form of its first and last day.  An event dated
    by the ISO form of a valid day followed by more characters is held
    by a window only if that day is on or after the first and before the
    last day of the window; an event stamped on the last day of a
    window, so also on the last day of the range, is held by no
    window. *)
Theorem week_ranges_timestamps start end_ events event d rest :
  valid_date start -> valid_date end_ -> valid_date d ->
  rest <> EmptyString -> ev_date event = (isoformat d ++ rest)%string ->
  let weeks := _week_ranges start end_ events in
  (forall w, w ∈ weeks -> event ∈ w_events w ->
     date_le (w_start w) d /\ date_lt d (w_end w)) /\
  (forall w', w' ∈ weeks -> w_end w' = d -> forall w, w ∈ weeks -> event ∉ w_events w).
Proof.
  intros Hstart Hend Hd Hrest Hdate. cbv zeta.
  pose proof (valid_cal _ Hstart) as Hcs. pose proof (valid_cal _ Hend) as Hce.
  pose proof (valid_cal _ Hd) as Hcd.
  destruct (Z.le_gt_cases (rank start) (rank end_)) as [Hle|Hgt].
  2: { unfold _week_ranges. rewrite week_loop_past by (assumption || lia).
       split; intros w Hw; inversion Hw. }
  assert (Hchain : week_chain end_ events 1 start (_week_ranges start end_ events))
    by (apply week_ranges_chain; [assumption..|now apply date_le_rank]).
  set (ws := _week_ranges start end_ events) in *. clearbody ws.
  assert (Hheld : forall (i : nat) w, ws !! i = Some w -> event ∈ w_events w ->
            rank (w_start w) <= rank d < rank (w_end w)).
  { intros i w Hi Hheld.
    destruct (chain_lookup end_ events 1 start ws Hchain i w Hi)
      as (Hw & Hws & Hwe & Hr1 & Hr2 & _).
    assert (Hvs : valid_date (w_start w)) by (apply (valid_between start end_); (assumption || lia)).
    assert (Hve : valid_date (w_end w)) by (apply (valid_between start end_); (assumption || lia)).
    rewrite Hw in Hheld. cbn [w_events week_of] in Hheld.
    apply list_elem_of_In, filter_In in Hheld. destruct Hheld as [_ Hweek].
    unfold in_week in Hweek. rewrite Hdate in Hweek.
    apply andb_prop in Hweek. destruct Hweek as [Hlo Hhi].
    unfold str_le, String.leb in Hlo, Hhi.
    rewrite compare_extended_r in Hlo by (now rewrite !isoformat_length || exact Hrest).
    rewrite compare_extended_l in Hhi by (now rewrite !isoformat_length || exact Hrest).
    rewrite isoformat_compare in Hlo, Hhi by assumption.
    rewrite date_compare_rank in Hlo, Hhi by assumption.
    destruct (Z.compare_spec (rank (w_start w)) (rank d));
      destruct (Z.compare_spec (rank d) (rank (w_end w))); try discriminate; lia. }
  split.
  - intros w Hw Hin. apply list_elem_of_lookup in Hw. destruct Hw as [i Hi].
    destruct (chain_lookup end_ events 1 start ws Hchain i w Hi) as (_ & Hws & Hwe & _).
    pose proof (Hheld i w Hi Hin) as Hr.
    split; [apply (date_le_rank _ _ Hws Hcd)|apply (date_lt_rank _ _ Hcd Hwe)]; lia.
  - intros w' Hw' Hlast w Hw Hin.
    apply list_elem_of_lookup in Hw, Hw'. destruct Hw as [i Hi], Hw' as [j Hj].
    pose proof (Hheld i w Hi Hin) as Hr.
    destruct (chain_lookup end_ events 1 start ws Hchain j w' Hj) as (_ & _ & _ & _ & Hr' & _).
    destruct (Nat.lt_trichotomy i j) as [Hlt|[Heq|Hgt]].
    + pose proof (chain_apart end_ events 1 start ws Hchain i j w w' Hlt Hi Hj). 
      rewrite Hlast in *. lia.
    + subst j. rewrite Hi in Hj. injection Hj as <-. rewrite Hlast in Hr. lia.
    + pose proof (chain_apart end_ events 1 start ws Hchain j i w' w Hgt Hj Hi).
      rewrite Hlast in *. lia.
Qed.

End Timestamps.

Lemma get_events_day_bound_witness :
  (forall X : gset Z, glob_elements X ≡ₚ elements X) /\
  "2024-01-07"%string <> EmptyString /\ "T10:00:00"%string <> EmptyString /\
  stamped_event ∈ candidates glob_elements (Some 2024) stamped_store /\
  stamped_event ∈ snd (get_events glob_elements (Some 2024) (Some "2024-01-07"%string)
                         None None true stamped_store) /\
  stamped_event ∉ snd (get_events glob_elements (Some 2024) None (Some "2024-01-07"%string)
                         None true stamped_store).
Proof.
  assert (Hglob : forall X : gset Z, glob_elements X ≡ₚ elements X) by reflexivity.
  assert (Hin : stamped_event ∈ candidates glob_elements (Some 2024) stamped_store)
    by apply list_elem_of_here.
  split; [exact Hglob|]. split; [discriminate|]. split; [discriminate|].
  split; [exact Hin|].
  exact (get_events_day_bound glob_elements Hglob (Some 2024) "2024-01-07" "T10:00:00"
           stamped_event stamped_store ltac:(discriminate) ltac:(discriminate) Hin eq_refl).
Defined.

Lemma week_ranges_timestamps_witness :
  valid_date (mkdate 2024 1 1) /\ valid_date (mkdate 2024 1 31) /\
  valid_date (mkdate 2024 1 7) /\
  forall w, w ∈ _week_ranges (mkdate 2024 1 1) (mkdate 2024 1 31) [stamped_event] ->
            stamped_event ∉ w_events w.
Proof.
  assert (H1 : valid_date (mkdate 2024 1 1)) by (repeat split; vm_compute; discriminate).
  assert (H2 : valid_date (mkdate 2024 1 31)) by (repeat split; vm_compute; discriminate).
  assert (H3 : valid_date (mkdate 2024 1 7)) by (repeat split; vm_compute; discriminate).
  split; [exact H1|]. split; [exact H2|]. split; [exact H3|].
  refine (proj2 (week_ranges_timestamps (mkdate 2024 1 1) (mkdate 2024 1 31) [stamped_event]
                   stamped_event (mkdate 2024 1 7) "T10:00:00" H1 H2 H3
                   ltac:(discriminate) eq_refl)
                (mkWeek "Week 1 (2024-01-01 to 2024-01-07)" (mkdate 2024 1 1) (mkdate 2024 1 7) [])
                _ eq_refl).
  apply list_elem_of_here.
Defined.

(** ** The assembled arc *)

Section MonthArcShape.

Variable fromisoformat : string -> option date.
Variable glob : gset Z -> list Z.
Variable round2 : Q -> Q.
Variable today : date.
Variable store : Store.
Variable weekly_arc_engine : WeeklyArcEngine.
Variable stitch : option (list TimelineEvent -> Stitched).
Variable task_engine : TaskEngine.
Variable audit : option (list TimelineEvent -> list string).

Lemma events_or_same {A} (l : list A) : events_or (Some l) l = l.
Proof. now destruct l. Qed.

Lemma resolve_default_some :
  exists range, _resolve_month_range fromisoformat today None None = Some range.
Proof. unfold _resolve_month_range. now eexists. Qed.



End MonthArcShape.

(** ** The themes of a month *)

Section ThemesShape.

Lemma app_head c s rest : (String c s ++ rest)%string = String c (s ++ rest)%string.
Proof. reflexivity. Qed.

Lemma tally_empty keys :
  fold_left (fun d k => dict_incr k d) keys [] = [] <-> keys = [].
Proof.
  split; [|now intros ->]. intros Hnil.
  pose proof (tally_total keys []) as Htotal. rewrite Hnil in Htotal.
  unfold dict_total in Htotal. simpl in Htotal.
  destruct keys; [reflexivity|]. simpl in Htotal. lia.
Qed.

Lemma count_tags_empty events : count_tags events = [] <-> tags_seen events = [].
Proof. unfold count_tags. rewrite count_tags_from. apply tally_empty. Qed.

Lemma trending_tags_empty tag_counts : trending_tags tag_counts = [] <-> tag_counts = [].
Proof.
  unfold trending_tags. split.
  - destruct (map fst (List.filter (fun item => 1 <? snd item) tag_counts)) as [|t ts];
      [|discriminate].
    destruct tag_counts as [|item rest]; [reflexivity|]. intros Hnil. exfalso.
    pose proof (sorted_perm (fun a b : string * Z => snd b <=? snd a) (item :: rest)) as Hperm.
    fold (by_count_desc (item :: rest)) in Hperm.
    destruct (by_count_desc (item :: rest)) as [|x l]; [|discriminate].
    apply Permutation_nil_l in Hperm. discriminate.
  - now intros ->.
Qed.

Lemma special_tracks_empty (tag_counts : list (string * Z)) :
  tag_counts = [] ->
  List.filter (fun keyword => dict_has keyword tag_counts) special_keywords = [].
Proof. now intros ->. Qed.

(** X19. The shape of the themes.  [infer_monthly_themes] never returns
    an empty list and never more than eight lines: at most one line each
    for the trending tags, the motifs and the emotional patterns, and at
    most one for each of the five tracked keywords.  It returns the
    single line "No major themes detected." exactly when no event has a
    tag, no weekly arc has a motif and no event has a sentiment or
    tone. *)
Theorem infer_monthly_themes_shape events weekly_arcs :
  infer_monthly_themes events weekly_arcs <> [] /\
  (length (infer_monthly_themes events weekly_arcs) <= 8)%nat /\
  (infer_monthly_themes events weekly_arcs = ["No major themes detected."%string] <->
   tags_seen events = [] /\ omap week_motif weekly_arcs = [] /\ omap mood events = []).
Proof.
  unfold infer_monthly_themes. cbv zeta.
  pose proof (trending_tags_empty (count_tags events)) as Htrending.
  rewrite count_tags_empty in Htrending.
  pose proof (special_tracks_empty (count_tags events)) as Hspecial.
  rewrite count_tags_empty in Hspecial.
  pose proof (List.filter_length_le (fun keyword => dict_has keyword (count_tags events))
                special_keywords) as Hfive.
  change (length special_keywords) with 5%nat in Hfive.
  set (special := List.filter _ special_keywords) in *. clearbody special.
  set (trending := trending_tags (count_tags events)) in *. clearbody trending.
  set (motifs := omap week_motif weekly_arcs). clearbody motifs.
  set (patterns := omap mood events). clearbody patterns.
  set (tags := tags_seen events) in *. clearbody tags.
  destruct trending as [|t trending].
  - rewrite (Hspecial (proj1 Htrending eq_refl)). cbn [map app].
    destruct motifs as [|m motifs], patterns as [|p patterns]; cbn [app];
      (split; [discriminate|]); (split; [simpl; lia|]);
      rewrite ?app_head; split; try discriminate; try tauto;
      intros (_ & H1 & H2); discriminate.
  - split_and!.
    + cbn [app]. discriminate.
    + destruct motifs, patterns; cbn [app length]; rewrite ?length_map; lia.
    + cbn [app]. rewrite app_head. split; [discriminate|].
      intros (Htags & _). apply Htrending in Htags. discriminate.
Qed.

End ThemesShape.

(** ** The narrative of a month *)

Section NarrativeShape.

Variable fromisoformat : string -> option date.
Variable glob : gset Z -> list Z.
Variable round2 : Q -> Q.
Variable today : date.
Variable store : Store.
Variable weekly_arc_engine : WeeklyArcEngine.
Variable stitch : option (list TimelineEvent -> Stitched).
Variable task_engine : TaskEngine.
Variable audit : option (list TimelineEvent -> list string).

Lemma generate_month_narrative_from events weekly_arcs :
  exists month_events,
    generate_month_narrative fromisoformat glob today store stitch events weekly_arcs
    = Some (narrative_from stitch month_events weekly_arcs) /\
    (forall e rest, events = Some (e :: rest) -> month_events = e :: rest).
Proof.
  unfold generate_month_narrative, gather_month_events.
  destruct (resolve_default_some fromisoformat today) as [[start end_] ->].
  destruct events as [[|e rest]|]; eexists; (split; [reflexivity|]);
    intros e' rest' [=]; congruence.
Qed.

Lemma construct_month_arc_parts start_date end_date month_arc :
  construct_month_arc fromisoformat glob round2 today store weekly_arc_engine stitch
    task_engine audit start_date end_date = Some month_arc ->
  exists month_events,
    ma_narrative month_arc =
      narrative_from stitch month_events (Some (ma_weekly_arcs month_arc)) /\
    (md_events (ma_events month_arc) <> [] -> month_events = md_events (ma_events month_arc)) /\
    ma_themes month_arc =
      infer_monthly_themes (md_events (ma_events month_arc)) (ma_weekly_arcs month_arc) /\
    exists start end_,
      ma_weekly_arcs month_arc =
        map (fun w => mkWeeklyArc (w_label w)
                        (_call_weekly_arc_engine weekly_arc_engine (w_events w)
                           (w_start w) (w_end w)))
            (_week_ranges start end_ (md_events (ma_events month_arc))).
Proof.
  unfold construct_month_arc, synthesize_weekly_arcs, gather_month_events.
  destruct (_resolve_month_range fromisoformat today start_date end_date)
    as [[start end_]|]; [|discriminate].
  cbv zeta. cbn [md_events]. rewrite events_or_same.
  match goal with
  | |- context [generate_month_narrative ?f ?g ?t ?s ?st ?ev ?wa] =>
    destruct (generate_month_narrative_from ev wa) as (month_events & -> & Hsame)
  end.
  intros [= <-]. exists month_events. cbn. split_and!; try reflexivity.
  - intros Hne. destruct (events_between glob store start end_) as [|e rest];
      [congruence|]. now apply (Hsame e rest).
  - now exists start, end_.
Qed.

Lemma progress_line line keywords :
  line ∈ map (fun keyword => ("Progress in " ++ keyword)%string) keywords ->
  exists rest, line = String "P" rest.
Proof.
  intros Hin. apply list_elem_of_fmap in Hin. destruct Hin as (keyword & -> & _).
  rewrite app_head. now eexists.
Qed.

Lemma motif_line_in_themes events weekly_arcs :
  omap week_motif weekly_arcs <> [] <->
  ("Repeated motifs: " ++ join ", " (omap week_motif weekly_arcs))%string
    ∈ infer_monthly_themes events weekly_arcs.
Proof.
  unfold infer_monthly_themes. cbv zeta.
  set (special := map _ (List.filter _ special_keywords)).
  assert (Hspecial : forall line, line ∈ special -> exists rest, line = String "P" rest)
    by (intros line; apply progress_line).
  clearbody special.
  set (trending := trending_tags (count_tags events)). clearbody trending.
  set (motifs := omap week_motif weekly_arcs). clearbody motifs.
  set (patterns := omap mood events). clearbody patterns.
  split.
  - intros Hmotifs.
    assert (Hin : ("Repeated motifs: " ++ join ", " motifs)%string ∈
              (match trending with
               | [] => []
               | _ => [("Trending tags: " ++ join ", " (sorted str_le trending))%string]
               end)
              ++ (match motifs with
                  | [] => []
                  | _ => [("Repeated motifs: " ++ join ", " motifs)%string]
                  end)
              ++ (match patterns with
                  | [] => []
                  | _ => [("Emotional patterns: " ++ join ", " patterns)%string]
                  end)
              ++ special).
    { apply elem_of_app. right. apply elem_of_app. left.
      destruct motifs; [congruence|]. apply list_elem_of_here. }
    destruct (_ ++ _ ++ _ ++ special) as [|x l]; [inversion Hin|exact Hin].
  - intros Hin Hmotifs. rewrite Hmotifs in Hin. cbn [app join] in Hin.
    rewrite app_head in Hin.
    assert (Hnot : forall themes : list string,
              (forall line, line ∈ themes -> exists c rest, line = String c rest /\ c <> "R"%char) ->
              String "R" ("epeated motifs: " ++ "")%string ∈ themes -> False).
    { intros themes Hthemes Hline. destruct (Hthemes _ Hline) as (c & rest & [= <- _] & Hc).
      congruence. }
    assert (Hparts : forall line,
              line ∈ (match trending with
                      | [] => []
                      | _ => [("Trending tags: " ++ join ", " (sorted str_le trending))%string]
                      end)
                     ++ (match patterns with
                         | [] => []
                         | _ => [("Emotional patterns: " ++ join ", " patterns)%string]
                         end)
                     ++ special ->
              exists c rest, line = String c rest /\ c <> "R"%char).
    { intros line Hline. apply elem_of_app in Hline. destruct Hline as [Hline|Hline].
      - destruct trending; [inversion Hline|]. apply list_elem_of_singleton in Hline.
        rewrite Hline, app_head. eexists _, _. split; [reflexivity|discriminate].
      - apply elem_of_app in Hline. destruct Hline as [Hline|Hline].
        + destruct patterns; [inversion Hline|]. apply list_elem_of_singleton in Hline.
          rewrite Hline, app_head. eexists _, _. split; [reflexivity|discriminate].
        + destruct (Hspecial line Hline) as [rest ->].
          eexists _, _. split; [reflexivity|discriminate]. }
    destruct (_ ++ _ ++ special) as [|x l] eqn:Hthemes.
    + apply list_elem_of_singleton in Hin. discriminate.
    + exact (Hnot (x :: l) Hparts Hin).
Qed.

(** X20. Narrative and themes of one arc agree on the motifs.  In the
    arc [construct_month_arc] returns the subplots of the narrative are
    the motifs of the weekly arcs, in week order; the themes hold the
    line "Repeated motifs: " followed by these subplots joined by ", "
    exactly when there is a subplot; and the climax is the first turning
    point, or empty when there is none. *)
Theorem month_arc_motifs start_date end_date month_arc :
  construct_month_arc fromisoformat glob round2 today store weekly_arc_engine stitch
    task_engine audit start_date end_date = Some month_arc ->
  let narrative := ma_narrative month_arc in
  subplots narrative = omap week_motif (ma_weekly_arcs month_arc) /\
  (subplots narrative <> [] <->
   ("Repeated motifs: " ++ join ", " (subplots narrative))%string ∈ ma_themes month_arc) /\
  climax narrative = default EmptyString (head (turning_points narrative)).
Proof.
  intros Harc. destruct (construct_month_arc_parts _ _ _ Harc)
    as (month_events & Hnarrative & _ & Hthemes & _).
  cbv zeta. rewrite Hnarrative, Hthemes.
  set (weekly_arcs := ma_weekly_arcs month_arc). clearbody weekly_arcs.
  assert (Hsub : subplots (narrative_from stitch month_events (Some weekly_arcs)) =
                 omap week_motif weekly_arcs) by reflexivity.
  rewrite Hsub. split_and!.
  - reflexivity.
  - apply motif_line_in_themes.
  - unfold narrative_from. cbv zeta. cbn [climax turning_points].
    now destruct (match flat_map week_turning_points weekly_arcs with
                  | [] => _ | _ => _ end).
Qed.

Lemma silent_arc events start end_ :
  _call_weekly_arc_engine silent_weekly_engine events start end_ =
  ArcDict (Some (mkNarrative EmptyString EmptyString (TpList []))).
Proof. reflexivity. Qed.

Lemma omap_none {A B} (f : A -> option B) (l : list A) :
  (forall x, x ∈ l -> f x = None) -> omap f l = [].
Proof.
  induction l as [|x l IH]; intros Hnone; [reflexivity|].
  cbn. rewrite (Hnone x) by apply list_elem_of_here.
  apply IH. intros y Hy. apply Hnone. now apply list_elem_of_further.
Qed.

Lemma flat_map_nil {A B} (f : A -> list B) (l : list A) :
  (forall x, x ∈ l -> f x = []) -> flat_map f l = [].
Proof.
  induction l as [|x l IH]; intros Hnone; [reflexivity|].
  cbn. rewrite (Hnone x) by apply list_elem_of_here.
  apply IH. intros y Hy. apply Hnone. now apply list_elem_of_further.
Qed.

End NarrativeShape.

Section SilentEngine.

Variable fromisoformat : string -> option date.
Variable glob : gset Z -> list Z.
Variable round2 : Q -> Q.
Variable today : date.
Variable store : Store.
Variable stitch : option (list TimelineEvent -> Stitched).
Variable task_engine : TaskEngine.
Variable audit : option (list TimelineEvent -> list string).

(** X21. A weekly collaborator with none of the methods.  Every weekly
    arc is then the placeholder narrative with empty hook and arc, so
    the month has no subplots and no motif line, and for a month with
    events the turning points are the non-empty titles among its first
    three events, at most three, the climax being the first of them. *)
Theorem silent_engine_month_arc start_date end_date month_arc :
  construct_month_arc fromisoformat glob round2 today store silent_weekly_engine stitch
    task_engine audit start_date end_date = Some month_arc ->
  md_events (ma_events month_arc) <> [] ->
  Forall (fun week =>
            wa_arc week = ArcDict (Some (mkNarrative EmptyString EmptyString (TpList []))))
         (ma_weekly_arcs month_arc) /\
  subplots (ma_narrative month_arc) = [] /\
  turning_points (ma_narrative month_arc) =
    List.filter truthy_str (map ev_title (firstn 3 (md_events (ma_events month_arc)))) /\
  (length (turning_points (ma_narrative month_arc)) <= 3)%nat.
Proof.
  intros Harc Hevents.
  destruct (construct_month_arc_parts _ _ _ _ _ _ _ _ _ _ _ _ Harc)
    as (month_events & Hnarrative & Hsame & _ & start & end_ & Hweeks).
  rewrite (Hsame Hevents) in Hnarrative. clear Hsame.
  set (events := md_events (ma_events month_arc)) in *. clearbody events.
  assert (Hsilent : Forall (fun week =>
            wa_arc week = ArcDict (Some (mkNarrative EmptyString EmptyString (TpList []))))
            (ma_weekly_arcs month_arc)).
  { rewrite Hweeks. apply Forall_forall. intros week Hweek.
    apply list_elem_of_fmap in Hweek. destruct Hweek as (w & -> & _). reflexivity. }
  rewrite Forall_forall in Hsilent.
  assert (Hmotifs : omap week_motif (ma_weekly_arcs month_arc) = []).
  { apply omap_none. intros week Hweek. unfold week_motif.
    now rewrite (Hsilent week Hweek). }
  assert (Hpoints : flat_map week_turning_points (ma_weekly_arcs month_arc) = []).
  { apply flat_map_nil. intros week Hweek. unfold week_turning_points.
    now rewrite (Hsilent week Hweek). }
  assert (Hturning : turning_points (ma_narrative month_arc) =
            List.filter truthy_str (map ev_title (firstn 3 events))).
  { rewrite Hnarrative. unfold narrative_from. cbv zeta. cbn [turning_points].
    now rewrite Hpoints. }
  split_and!.
  - now apply Forall_forall.
  - rewrite Hnarrative. exact Hmotifs.
  - exact Hturning.
  - rewrite Hturning.
    etransitivity; [apply List.filter_length_le|].
    rewrite length_map, length_firstn. lia.
Qed.

End SilentEngine.

Lemma month_arc_motifs_witness :
  exists month_arc,
    construct_month_arc strict_fromisoformat glob_elements identity_round (mkdate 2025 3 15)
      example_store silent_weekly_engine (Some counting_stitcher) idle_task_engine
      (Some title_auditor) None None = Some month_arc /\
    subplots (ma_narrative month_arc) = omap week_motif (ma_weekly_arcs month_arc) /\
    climax (ma_narrative month_arc) =
      default EmptyString (head (turning_points (ma_narrative month_arc))).
Proof.
  eexists. split; [reflexivity|].
  destruct (month_arc_motifs strict_fromisoformat glob_elements identity_round
              (mkdate 2025 3 15) example_store silent_weekly_engine (Some counting_stitcher)
              idle_task_engine (Some title_auditor) None None _ eq_refl) as (H1 & _ & H3).
  split; [exact H1|exact H3].
Defined.

Lemma silent_engine_month_arc_witness :
  exists month_arc,
    construct_month_arc strict_fromisoformat glob_elements identity_round (mkdate 2025 3 15)
      example_store silent_weekly_engine (Some counting_stitcher) idle_task_engine
      (Some title_auditor) None None = Some month_arc /\
    md_events (ma_events month_arc) <> [] /\
    turning_points (ma_narrative month_arc) =
      List.filter truthy_str (map ev_title (firstn 3 (md_events (ma_events month_arc)))).
Proof.
  eexists. split; [reflexivity|]. split; [discriminate|].
  exact (proj1 (proj2 (proj2
           (silent_engine_month_arc strict_fromisoformat glob_elements identity_round
              (mkdate 2025 3 15) example_store (Some counting_stitcher) idle_task_engine
              (Some title_auditor) None None _ eq_refl ltac:(discriminate))))).
Defined.

(** ** The task summary and the drift report *)

Section TaskScore.

Variable round2 : Q -> Q.

(** X22. The summary of the tasks always carries a number as its score,
    never a missing key and never [None]; and when the collaborator has
    a [summarize_month] method its accessor methods are not consulted:
    two collaborators with the same monthly summary and the same weekly
    breakdown methods get the same summary, whatever their accessors
    return. *)
Theorem summarize_month_tasks_score task_engine :
  (exists q, efficiency_score (summarize_month_tasks round2 task_engine) = Some (Some q)) /\
  (forall other,
     is_Some (summarize_month task_engine) ->
     summarize_month other = summarize_month task_engine ->
     weekly_breakdown other = weekly_breakdown task_engine ->
     breakdown_by_week other = breakdown_by_week task_engine ->
     summarize_month_tasks round2 other = summarize_month_tasks round2 task_engine).
Proof.
  split.
  - rewrite efficiency_score_source.
    destruct (summarize_month task_engine) as [[u|]|]; [|now eexists..].
    destruct (u_efficiency_score u) as [[q|]|]; now eexists.
  - intros other [result Hresult] Hsame Hweekly Hbreakdown.
    unfold summarize_month_tasks. rewrite Hsame, Hweekly, Hbreakdown, Hresult.
    reflexivity.
Qed.

End TaskScore.

Lemma summarize_month_tasks_score_witness :
  is_Some (summarize_month scoreless_engine) /\
  summarize_month mixed_engine = summarize_month scoreless_engine /\
  summarize_month_tasks identity_round mixed_engine =
  summarize_month_tasks identity_round scoreless_engine.
Proof.
  assert (Hsome : is_Some (summarize_month scoreless_engine)) by (now eexists).
  split; [exact Hsome|]. split; [reflexivity|].
  exact (proj2 (summarize_month_tasks_score identity_round scoreless_engine) mixed_engine
           Hsome eq_refl eq_refl eq_refl).
Defined.

Section DriftLevels.

Lemma str_of_Z_head n : exists c rest, str_of_Z n = String c rest /\ c <> "N"%char.
Proof.
  unfold str_of_Z. destruct (Z.to_int n) as [u|u].
  - destruct u; eexists _, _; (split; [reflexivity|discriminate]).
  - eexists _, _. split; [reflexivity|discriminate].
Qed.

Lemma drift_notes_differ n :
  (str_of_Z n ++ " drift signals detected.")%string <> "No drift detected."%string.
Proof.
  destruct (str_of_Z_head n) as (c & rest & -> & Hc). rewrite app_head.
  intros [= Heq _]. congruence.
Qed.

Variable glob : gset Z -> list Z.
Variable store : Store.
Variable audit : option (list TimelineEvent -> list string).

(** X23. Severity and notes of the drift report go by the number of
    issues alone: "low" and "No drift detected." for none, "medium" for
    one to five, "high" for more than five, the notes then giving the
    number; a collaborator without an [audit] method reports no issue. *)
Theorem drift_audit_levels events :
  let report := run_monthly_drift_audit glob store audit events in
  let n := length (issues report) in
  (severity report = "low"%string <-> n = 0%nat) /\
  (severity report = "medium"%string <-> (1 <= n <= 5)%nat) /\
  (severity report = "high"%string <-> (5 < n)%nat) /\
  (notes report = "No drift detected."%string <-> n = 0%nat) /\
  (n <> 0%nat ->
   notes report = (str_of_Z (Z.of_nat n) ++ " drift signals detected.")%string) /\
  (audit = None -> n = 0%nat).
Proof.
  unfold run_monthly_drift_audit, drift_from. cbv zeta. cbn [issues severity notes].
  set (found := match audit with Some f => f _ | None => [] end).
  assert (Hnone : audit = None -> found = []) by (unfold found; now intros ->).
  clearbody found. destruct found as [|issue rest].
  - cbn. split_and!; try (split; intros; first [reflexivity|discriminate|lia]);
      first [congruence|reflexivity].
  - set (n := length (issue :: rest)).
    assert (Hn : (0 < n)%nat) by (unfold n; simpl; lia).
    assert (Hnotes : (str_of_Z (Z.of_nat n) ++ " drift signals detected.")%string <>
                     "No drift detected."%string) by apply drift_notes_differ.
    clearbody n.
    destruct (Z.ltb_spec 5 (Z.of_nat n)) as [H5|H5];
      [|destruct (Z.ltb_spec 0 (Z.of_nat n)) as [H0|H0]; [|lia]];
      (split_and!;
       [split; intros; first [discriminate|lia]
       |split; intros; first [reflexivity|discriminate|lia]
       |split; intros; first [reflexivity|discriminate|lia]
       |split; intros; first [contradiction|lia]
       |reflexivity
       |intros Ha; specialize (Hnone Ha); discriminate]).
Qed.

End DriftLevels.
